(** * DigiMark: block-wise spread-spectrum watermarking

    A shallow embedding of [DigiMark-Cuda/DigiMark.cpp]: the block tiler
    ([createBlocks], [assembleBlocks]), the coefficient selection and
    embedding of [placeWatermark], the input handling of
    [processImageFromFile] and the orchestration of [main].

    The OpenCV primitives the program calls are modelled by what they do to
    the values the program looks at:
    - [cv::Mat] is a header (rows, cols) over row-major element data;
    - [cv::Rect(x, y, width, height)]: [x] counts columns, [y] counts rows;
    - [Mat(I, rect)] and [I(rect)] raise a [cv::Exception] unless the
      rectangle lies inside the matrix;
    - [cv::minMaxLoc] scans row by row with strict comparisons, so that the
      first extremum met wins;
    - [float] is IEEE 754 binary32 ([SpecFloat] at precision 24). *)

From Stdlib Require Import String ZArith List Lia Bool SpecFloat.
Import ListNotations.
Open Scope Z_scope.

Set Implicit Arguments.

(** ** Ways a piece of the program can end *)

Inductive result (A : Type) : Type :=
| Ok (a : A)              (* falls through to the next statement *)
| Exit (status : Z)       (* exit(status) *)
| CvError                 (* a failed CV_Assert: an uncaught cv::Exception *)
| Undefined               (* undefined behaviour: an access outside a buffer, a signed overflow *)
| BadAlloc.               (* an uncaught std::bad_alloc: a loop appending without end *)

Arguments Ok {A} a.
Arguments Exit {A} status.
Arguments CvError {A}.
Arguments Undefined {A}.
Arguments BadAlloc {A}.

Definition bind {A B : Type} (m : result A) (k : A -> result B) : result B :=
  match m with
  | Ok a => k a
  | Exit s => Exit s
  | CvError => CvError
  | Undefined => Undefined
  | BadAlloc => BadAlloc
  end.

Declare Scope result_scope.
Delimit Scope result_scope with result.
Notation "x <- m ;; k" := (bind m (fun x => k))
  (at level 61, m at next level, right associativity) : result_scope.
Open Scope result_scope.

(** [for (int i = start; i < bound; i += step) body], threading the state the
    body updates.  The fuel bounds the number of tests of the loop
    condition; running out of it stands for a loop that does not end.  The
    loops of the program written with it append to a vector at every pass,
    so that such a loop goes on until the allocation fails. *)
Fixpoint for_step {St : Type} (fuel : nat) (i bound step : Z)
    (body : Z -> St -> result St) (s : St) : result St :=
  match fuel with
  | O => BadAlloc
  | S fuel' =>
      if i <? bound
      then s' <- body i s ;; for_step fuel' (i + step) bound step body s'
      else Ok s
  end.

(** A loop that turns every element of a vector into one of another, in
    order, and stops at the first element that ends the run. *)
Fixpoint map_result {A B : Type} (f : A -> result B) (l : list A)
  : result (list B) :=
  match l with
  | [] => Ok []
  | a :: l' =>
      b <- f a ;;
      bs <- map_result f l' ;;
      Ok (b :: bs)
  end.

(** ** Integer ranges *)

Fixpoint zseq (start : Z) (n : nat) : list Z :=
  match n with
  | O => []
  | S n' => start :: zseq (start + 1) n'
  end.

Definition zrange (n : Z) : list Z := zseq 0 (Z.to_nat n).

(** ** Matrices *)

Class Scalar (A : Type) : Type := { zero : A }.

Record Mat (A : Type) : Type := mkMat { rows : Z; cols : Z; data : list A }.

Record Rect : Type := mkRect { x : Z; y : Z; width : Z; height : Z }.

Record Point : Type := mkPoint { px : Z; py : Z }.

Section Matrices.
Context {A : Type} `{Scalar A}.

(** The header agrees with the buffer. *)
Definition continuous (m : Mat A) : Prop :=
  0 <= rows m /\ 0 <= cols m /\ Z.of_nat (length (data m)) = rows m * cols m.

(** [m.at<T>(r, c)] for a position inside the matrix. *)
Definition at_ (m : Mat A) (r c : Z) : A :=
  nth (Z.to_nat (r * cols m + c)) (data m) zero.

Definition in_mat (m : Mat A) (r c : Z) : bool :=
  (0 <=? r) && (r <? rows m) && (0 <=? c) && (c <? cols m).

(** The matrix of [R] rows and [C] columns whose element at [(r, c)] is
    [f r c]. *)
Definition build (R C : Z) (f : Z -> Z -> A) : Mat A :=
  mkMat R C (map (fun k => f (k / C) (k mod C)) (zrange (R * C))).

(** [Mat::zeros(R, C, type)] *)
Definition zeros (R C : Z) : Mat A := build R C (fun _ _ => zero).

(** [m.empty()] *)
Definition empty (m : Mat A) : bool := (rows m * cols m =? 0).

(** The test OpenCV asserts before it takes a region of interest. *)
Definition rect_inside (m : Mat A) (r : Rect) : bool :=
  (0 <=? x r) && (0 <=? width r) && (x r + width r <=? cols m) &&
  (0 <=? y r) && (0 <=? height r) && (y r + height r <=? rows m).

Definition in_rect (rc : Rect) (r c : Z) : bool :=
  (y rc <=? r) && (r <? y rc + height rc) &&
  (x rc <=? c) && (c <? x rc + width rc).

(** [Mat(I, frame)]: the content seen through the frame. *)
Definition roi (I : Mat A) (frame : Rect) : result (Mat A) :=
  if rect_inside I frame
  then Ok (build (height frame) (width frame)
             (fun r c => at_ I (y frame + r) (x frame + c)))
  else CvError.

(** [Mat dst_roi = I(frame); src.copyTo(dst_roi);] where [src] has the
    size of the frame: the copy lands in [I], whose new content is
    returned. *)
Definition copyTo_roi (src I : Mat A) (frame : Rect) : result (Mat A) :=
  if rect_inside I frame
  then Ok (build (rows I) (cols I)
             (fun r c => if in_rect frame r c
                         then at_ src (r - y frame) (c - x frame)
                         else at_ I r c))
  else CvError.

(** [m.at<T>(p) = v] *)
Fixpoint list_set (l : list A) (k : nat) (v : A) : list A :=
  match l, k with
  | [], _ => []
  | _ :: t, O => v :: t
  | h :: t, S k' => h :: list_set t k' v
  end.

Definition set_at (m : Mat A) (p : Point) (v : A) : result (Mat A) :=
  if in_mat m (py p) (px p)
  then Ok (mkMat (rows m) (cols m)
             (list_set (data m) (Z.to_nat (py p * cols m + px p)) v))
  else Undefined.

(** [m.at<T>(r, c)] and [m.at<T>(p)] as the program reads them: outside
    the matrix the read is outside the buffer. *)
Definition at_rc (m : Mat A) (r c : Z) : result A :=
  if in_mat m r c then Ok (at_ m r c) else Undefined.

Definition get_at (m : Mat A) (p : Point) : result A :=
  at_rc m (py p) (px p).

(** [copyMakeBorder(src, dst, top, bottom, left, right, BORDER_CONSTANT,
    Scalar::all(0))] *)
Definition copyMakeBorder (src : Mat A) (top bottom left right : Z)
  : result (Mat A) :=
  if (0 <=? top) && (0 <=? bottom) && (0 <=? left) && (0 <=? right)
  then Ok (build (rows src + top + bottom) (cols src + left + right)
             (fun r c => if in_mat src (r - top) (c - left)
                         then at_ src (r - top) (c - left)
                         else zero))
  else CvError.

(** *** The block tiler *)

Definition loop_fuel (M1 : Z) : nat := S (Z.to_nat M1).

(** The greatest [int]. *)
Definition INT_MAX : Z := 2147483647.

(** [createBlocks(V, I, N)].  The loop bound [M1 - N + 1] is an [int]: with
    a block size below 1 it can pass [INT_MAX], a signed overflow, which is
    undefined; with a positive block size it is at most [M1]. *)
Definition createBlocks (V : list (Mat A)) (I : Mat A) (N : Z)
  : result (list (Mat A)) :=
  let M1 := rows I in
  let M2 := cols I in
  if negb (M1 =? M2) then Exit 0
  else if (N <=? 0) && (INT_MAX <? M1 - N + 1) then Undefined
  else
    for_step (loop_fuel M1) 0 (M1 - N + 1) N (fun i V =>
      for_step (loop_fuel M1) 0 (M1 - N + 1) N (fun j V =>
        Vij <- roi I (mkRect i j N N) ;;
        Ok (V ++ [Vij])) V) V.

(** The frame [assembleBlocks] computes for block [Vi] at index [i]. *)
Definition block_frame (Vi : Mat A) (i n : Z) : Rect :=
  let row_num := Z.quot i n in
  let col_num := Z.rem i n in
  mkRect (row_num * cols Vi) (col_num * rows Vi) (cols Vi) (rows Vi).

(** The loop of [assembleBlocks], from index [i] on. *)
Fixpoint assemble_from (V : list (Mat A)) (i : Z) (I : Mat A) (n : Z)
  : result (Mat A) :=
  match V with
  | [] => Ok I
  | Vi :: V' =>
      if n =? 0 then Undefined          (* i / n, i % n *)
      else
        I' <- copyTo_roi Vi I (block_frame Vi i n) ;;
        assemble_from V' (i + 1) I' n
  end.

(** [assembleBlocks(V, I, n)] *)
Definition assembleBlocks (V : list (Mat A)) (I : Mat A) (n : Z)
  : result (Mat A) :=
  assemble_from V 0 I n.

End Matrices.

(** ** Pixel and coefficient types *)

(** 8-bit samples ([CV_8U]). *)
#[export] Instance Scalar_u8 : Scalar Z := {| zero := 0 |}.

(** [float] ([CV_32F]): IEEE 754 binary32. *)
Definition float : Type := spec_float.
Definition prec32 : Z := 24.
Definition emax32 : Z := 128.

Definition fadd (a b : float) : float := SFadd prec32 emax32 a b.
Definition fmul (a b : float) : float := SFmul prec32 emax32 a b.

#[export] Instance Scalar_float : Scalar float := {| zero := S754_zero false |}.

(** The literal [0.5] as a float: 2^23 * 2^-24. *)
Definition half : float := S754_finite false 8388608 (-24).

(** Small integers as floats, for test blocks. *)
Definition of_Z (z : Z) : float := binary_normalize prec32 emax32 z 0 false.

(** ** minMaxLoc *)

(** The running extremes of [cv::minMaxIdx]: values, and positions counted
    from 1, with 0 for "nothing has won yet". *)
Record MinMax : Type := mkMinMax
  { minVal : float; maxVal : float; minIdx : Z; maxIdx : Z }.

(** The scan kernel: strict comparisons, so an element equal to the current
    extreme does not displace it. *)
Fixpoint minMaxIdx_ (src : list float) (k : Z) (st : MinMax) : MinMax :=
  match src with
  | [] => st
  | val :: src' =>
      let st1 := if SFltb val (minVal st)
                 then mkMinMax val (maxVal st) k (maxIdx st) else st in
      let st2 := if SFltb (maxVal st1) val
                 then mkMinMax (minVal st1) val (minIdx st1) k else st1 in
      minMaxIdx_ src' (k + 1) st2
  end.

(** Position [ofs] (from 1) to a point: [x] is the column, [y] the row;
    [(-1, -1)] when nothing was found. *)
Definition ofs2loc (m : Mat float) (ofs : Z) : Point :=
  if 0 <? ofs
  then mkPoint ((ofs - 1) mod cols m) ((ofs - 1) / cols m)
  else mkPoint (-1) (-1).

(** [minMaxLoc(m, &min_val, &max_val, &min_loc, &max_loc)]; the locations
    are what the program uses. *)
Definition minMaxLoc (m : Mat float) : Point * Point :=
  let st0 := mkMinMax (S754_infinity false) (S754_infinity true) 0 0 in
  let st := minMaxIdx_ (data m) 1 st0 in
  let fix_idx (i : Z) := if negb (empty m) && (i =? 0) then 1 else i in
  (ofs2loc m (fix_idx (minIdx st)), ofs2loc m (fix_idx (maxIdx st))).

(** ** placeWatermark *)

(** Lines 91-100: the location the second [minMaxLoc] reports, after the
    first maximum has been set to zero in the copy. *)
Definition significant_loc (Vi : Mat float) : result Point :=
  let temp := Vi in
  let max_loc := snd (minMaxLoc Vi) in
  temp <- set_at temp max_loc zero ;;
  let max_loc := snd (minMaxLoc temp) in
  Ok max_loc.

(** [placeWatermark(Vi, W)]: the block after the call. *)
Definition placeWatermark (Vi : Mat float) (W : float) : result (Mat float) :=
  max_loc <- significant_loc Vi ;;
  let alpha := half in
  v <- get_at Vi max_loc ;;
  set_at Vi max_loc (fadd v (fmul alpha W)).

(** ** Padding to a transform-friendly size *)

(** Divide [n] by [p] as long as it divides. *)
Fixpoint strip (fuel : nat) (p n : Z) : Z :=
  match fuel with
  | O => n
  | S fuel' => if n mod p =? 0 then strip fuel' p (n / p) else n
  end.

(** A product of powers of 2, 3 and 5 (below 2^32). *)
Definition smooth5 (n : Z) : bool :=
  (0 <? n) && (strip 32 5 (strip 32 3 (strip 32 2 n)) =? 1).

Fixpoint next_smooth5 (fuel : nat) (n : Z) : Z :=
  match fuel with
  | O => -1
  | S fuel' => if smooth5 n then n else next_smooth5 fuel' (n + 1)
  end.

(** [getOptimalDFTSize(vecsize)]: the least product of powers of 2, 3 and 5
    that is at least [vecsize]; -1 beyond the last entry of OpenCV's table. *)
Definition getOptimalDFTSize (vecsize : Z) : Z :=
  if (vecsize <? 0) || (2125764000 <=? vecsize) then -1
  else next_smooth5 (S (Z.to_nat vecsize)) (Z.max vecsize 1).

(** ** The program *)

(** A file written by [imwrite]. *)
Definition artifact : Type := (string * Mat Z)%type.

(** What a run leaves behind: the files written, in order, and how the
    process ended ([Ok c]: [main] returned [c]). *)
Record run : Type := mkRun { written : list artifact; status : result Z }.

(** Continue a run after a step that may end it. *)
Definition andThen {A : Type} (w : list artifact) (m : result A)
    (k : A -> run) : run :=
  match m with
  | Ok a => k a
  | Exit s => mkRun w (Exit s)
  | CvError => mkRun w CvError
  | Undefined => mkRun w Undefined
  | BadAlloc => mkRun w BadAlloc
  end.

(** Element-wise [convertTo]. *)
Definition convertTo {A B : Type} (f : A -> B) (m : Mat A) : Mat B :=
  mkMat (rows m) (cols m) (map f (data m)).

Section Program.
(** The collaborators of the pipeline: image decoding, the random field,
    sample conversion, what the cosine transforms compute and the CUDA
    embedding of [Watermarking_CUDA.h].  Console output, timing and the
    display windows ([imshow], [waitKey]), and the two CUDA random fields,
    which are only displayed, are left out. *)
Variable imread : string -> Mat Z.        (* empty when the file cannot be decoded *)
Variable randu : Z -> list float.         (* that many uniform values in [0,1) *)
Variable to_32F : Z -> float.             (* convertTo(_, CV_32F, 1.0 / 255) on a sample *)
Variable to_8U : float -> Z.              (* convertTo(_, CV_8U, 255.0) on a sample *)
Variable dct_data : Z -> Z -> list float -> list float.
Variable idct_data : Z -> Z -> list float -> list float.
Variable CalcWatermark : list float -> float -> list float.

(** The lengths OpenCV's cosine transform refuses ("Odd-size DCT's are
    not implemented"): the odd ones above 1. *)
Definition odd_side (k : Z) : bool := (1 <? k) && Z.odd k.

(** [dct(src, dst)] and [idct(src, dst)]: they raise on a side they refuse;
    otherwise [dst] gets the size of [src]. *)
Definition dct (m : Mat float) : result (Mat float) :=
  if odd_side (cols m) || odd_side (rows m) then CvError
  else Ok (mkMat (rows m) (cols m) (dct_data (rows m) (cols m) (data m))).
Definition idct (m : Mat float) : result (Mat float) :=
  if odd_side (cols m) || odd_side (rows m) then CvError
  else Ok (mkMat (rows m) (cols m) (idct_data (rows m) (cols m) (data m))).

(** [processImageFromFile(I, fileName)]: the padded image left in [I]. *)
Definition processImageFromFile (fileName : string) : result (Mat Z) :=
  let image := imread fileName in
  if empty image then Exit 0
  else
    let M := getOptimalDFTSize (rows image) in
    let N := getOptimalDFTSize (cols image) in
    if negb (M =? N) then Exit 0
    else copyMakeBorder image 0 (M - rows image) 0 (N - cols image).

(** [createWatermark(W, n)] *)
Definition createWatermark (n : Z) : Mat float :=
  mkMat n n (randu (n * n)).

(** The grid constant of [main]. *)
Definition n : Z := 8.

(** Lines 161-164: tiling of the padded image. *)
Definition tile_image (I : Mat Z) : result (list (Mat Z)) :=
  let N := Z.quot (rows I) n in
  createBlocks [] I N.

(** Lines 166-175: conversion and forward transform of every block. *)
Definition transform_blocks (V : list (Mat Z)) : result (list (Mat float)) :=
  map_result (fun Vi => dct (convertTo to_32F Vi)) V.

(** Lines 196-202 and 225-231: inverse transform of every block. *)
Definition inverse_blocks (Vdct : list (Mat float))
  : result (list (Mat float)) :=
  map_result idct Vdct.

(** The destination of every reassembly. *)
Definition destination : Mat float := zeros 512 512.

(** Lines 187-192: the embedding loop, from index [i] on. *)
Fixpoint embed_from (W : Mat float) (Vdct : list (Mat float)) (i : Z)
  : result (list (Mat float)) :=
  match Vdct with
  | [] => Ok []
  | Vi :: Vdct' =>
      let row_num := Z.quot i n in
      let col_num := Z.rem i n in
      w <- at_rc W row_num col_num ;;
      Vi' <- placeWatermark Vi w ;;
      rest <- embed_from W Vdct' (i + 1) ;;
      Ok (Vi' :: rest)
  end.

(** Lines 213-221: the same loop through [CalcWatermark]. *)
Fixpoint cuda_embed_from (W : Mat float) (Vcdct : list (Mat float)) (i : Z)
  : result (list (Mat float)) :=
  match Vcdct with
  | [] => Ok []
  | Vi :: Vcdct' =>
      let row_num := Z.quot i n in
      let col_num := Z.rem i n in
      w <- at_rc W row_num col_num ;;
      let Vi' := mkMat (rows Vi) (cols Vi) (CalcWatermark (data Vi) w) in
      rest <- cuda_embed_from W Vcdct' (i + 1) ;;
      Ok (Vi' :: rest)
  end.

(** Lines 121-239.  [Vdct] and [Vcdct] hold headers over the same
    buffers, so the second loop starts from the blocks the first one
    left. *)
Definition pipeline (I : Mat Z) : run :=
  let W := createWatermark n in
  let Iw := convertTo to_8U W in
  let w1 := [("watermark.png"%string, Iw)] in
  andThen w1 (tile_image I) (fun V =>
  andThen w1 (transform_blocks V) (fun Vdct =>
  andThen w1 (assembleBlocks Vdct destination n) (fun Idct =>
  let Iwdct := convertTo to_8U Idct in
  let w2 := w1 ++ [("dcts.png"%string, Iwdct)] in
  andThen w2 (embed_from W Vdct 0) (fun Vdct =>
  andThen w2 (inverse_blocks Vdct) (fun D =>
  andThen w2 (assembleBlocks D destination n) (fun Id =>
  let Id := convertTo to_8U Id in
  let w3 := w2 ++ [("lena_reassembled.png"%string, Id)] in
  let Vcdct := Vdct in
  andThen w3 (cuda_embed_from W Vcdct 0) (fun Vcdct =>
  andThen w3 (inverse_blocks Vcdct) (fun Dc =>
  andThen w3 (assembleBlocks Dc destination n) (fun Icd =>
  mkRun w3 (Ok 0)))))))))).

(** [main(argc, argv)], with [argv] holding the program name first. *)
Definition main (argv : list string) : run :=
  if negb (Z.of_nat (length argv) =? 2) then mkRun [] (Ok (-1))
  else andThen [] (processImageFromFile (nth 1 argv EmptyString)) pipeline.

End Program.

(** ** What the specification says, for comparison *)

(** "Iterates the image in row-major grid order": block [i] is the cell at
    grid row [i / G] and grid column [i mod G]. *)
Definition spec_tile_row_major {A : Type} `{Scalar A} (I : Mat A) (N : Z)
  : list (Mat A) :=
  let G := rows I / N in
  map (fun i => build N N (fun r c => at_ I (i / G * N + r) (i mod G * N + c)))
      (zrange (G * G)).

(** "places block i at grid position (row = i / gridWidth,
    col = i % gridWidth)": the region written starts at that row and that
    column, in blocks. *)
Definition spec_block_frame {A : Type} (Vi : Mat A) (i gridWidth : Z) : Rect :=
  mkRect (i mod gridWidth * cols Vi) (i / gridWidth * rows Vi)
         (cols Vi) (rows Vi).

(** "the coefficient of maximum magnitude ... the first encountered in
    row-major scan order": position (from 0) of the first element of
    greatest magnitude among those not skipped. *)
Fixpoint spec_argmax_abs (l : list float) (k : Z) (skip : Z)
    (best : option (Z * float)) : option (Z * float) :=
  match l with
  | [] => best
  | v :: l' =>
      let best' :=
        if k =? skip then best
        else match best with
             | None => Some (k, v)
             | Some (_, b) => if SFltb (SFabs b) (SFabs v) then Some (k, v) else best
             end in
      spec_argmax_abs l' (k + 1) skip best'
  end.

(** "find the coefficient of maximum magnitude; mask it out; find the
    coefficient of maximum magnitude in the remaining coefficients". *)
Definition spec_selectTarget (b : Mat float) : option Point :=
  match spec_argmax_abs (data b) 0 (-1) None with
  | None => None
  | Some (k1, _) =>
      match spec_argmax_abs (data b) 0 k1 None with
      | None => None
      | Some (k2, _) => Some (mkPoint (k2 mod cols b) (k2 / cols b))
      end
  end.

(** Bit-identity of two coefficients, and the number of positions at which
    two buffers differ. *)
Definition bit_identical (a b : float) : bool :=
  match a, b with
  | S754_zero s1, S754_zero s2 => Bool.eqb s1 s2
  | S754_infinity s1, S754_infinity s2 => Bool.eqb s1 s2
  | S754_nan, S754_nan => true
  | S754_finite s1 m1 e1, S754_finite s2 m2 e2 =>
      Bool.eqb s1 s2 && Pos.eqb m1 m2 && Z.eqb e1 e2
  | _, _ => false
  end.

Fixpoint changed_count (a b : list float) : nat :=
  match a, b with
  | va :: a', vb :: b' =>
      ((if bit_identical va vb then 0 else 1) + changed_count a' b')%nat
  | _, _ => 0%nat
  end.

(** Test blocks. *)
Definition block_of (R C : Z) (l : list Z) : Mat float :=
  mkMat R C (map of_Z l).

(** ** The blocks in the order the loops of [createBlocks] visit them *)

(** The cell of the grid at grid column [gx] and grid row [gy]. *)
Definition cell {A : Type} `{Scalar A} (I : Mat A) (N gx gy : Z) : Mat A :=
  build N N (fun r c => at_ I (gy * N + r) (gx * N + c)).

Definition tiles {A : Type} `{Scalar A} (I : Mat A) (N : Z) : list (Mat A) :=
  let G := rows I / N in
  flat_map (fun gx => map (fun gy => cell I N gx gy) (zrange G)) (zrange G).

(** Two block lists with the same headers, block by block. *)
Definition same_headers {A B : Type} (V : list (Mat A)) (V' : list (Mat B))
  : Prop :=
  Forall2 (fun a b => rows a = rows b /\ cols a = cols b) V V'.

(** * Properties *)

Unset Implicit Arguments.

(** ** Ranges and lists *)

Lemma length_zseq (n : nat) (s : Z) : length (zseq s n) = n.
Proof.
  revert s; induction n as [|n IH]; intros s; simpl; [reflexivity|].
  now rewrite IH.
Qed.

Lemma nth_zseq (n : nat) (s : Z) (k : nat) (d : Z) :
  (k < n)%nat -> nth k (zseq s n) d = s + Z.of_nat k.
Proof.
  revert s k; induction n as [|n IH]; intros s k Hk; [lia|].
  destruct k as [|k]; simpl.
  - lia.
  - rewrite IH by lia. lia.
Qed.

Lemma in_zseq (n : nat) (s v : Z) :
  In v (zseq s n) <-> s <= v < s + Z.of_nat n.
Proof.
  revert s; induction n as [|n IH]; intros s; simpl.
  - split; [tauto | lia].
  - rewrite IH. split.
    + intros [->|Hv]; lia.
    + intros Hv. destruct (Z.eq_dec s v); [now left | right; lia].
Qed.

Lemma zseq_app (n m : nat) (s : Z) :
  zseq s (n + m) = zseq s n ++ zseq (s + Z.of_nat n) m.
Proof.
  revert s; induction n as [|n IH]; intros s.
  - simpl. f_equal. lia.
  - cbn [Nat.add zseq app]. rewrite IH. do 3 f_equal. lia.
Qed.

Lemma zseq_shift (n : nat) (s : Z) :
  zseq s n = map (fun t => s + t) (zseq 0 n).
Proof.
  apply nth_ext with (d := 0) (d' := s + 0).
  - now rewrite length_map, !length_zseq.
  - intros k Hk. rewrite length_zseq in Hk.
    rewrite (map_nth (fun t => s + t)), !nth_zseq by assumption. lia.
Qed.

Lemma length_zrange (n : Z) : length (zrange n) = Z.to_nat n.
Proof. apply length_zseq. Qed.

Lemma nth_zrange (n k : Z) (d : Z) :
  0 <= k < n -> nth (Z.to_nat k) (zrange n) d = k.
Proof.
  intros Hk. unfold zrange. rewrite nth_zseq by lia. lia.
Qed.

Lemma nth_map_in {X Y : Type} (f : X -> Y) (l : list X) (k : nat) (dx : X) (dy : Y) :
  (k < length l)%nat -> nth k (map f l) dy = f (nth k l dx).
Proof.
  intros Hk. rewrite (nth_indep _ dy (f dx)) by now rewrite length_map.
  apply map_nth.
Qed.

(** Nested ranges, flattened. *)
Lemma flat_map_zseq {Y : Type} (f : Z -> Z -> Y) (g n' : nat) (s : Z) :
  (0 < g)%nat -> 0 <= s ->
  flat_map (fun a => map (f a) (zseq 0 g)) (zseq s n') =
  map (fun k => f (k / Z.of_nat g) (k mod Z.of_nat g))
      (zseq (s * Z.of_nat g) (n' * g)).
Proof.
  intros Hg. revert s; induction n' as [|n' IH]; intros s Hs; [reflexivity|].
  cbn [zseq flat_map Nat.mul]. rewrite zseq_app, map_app, IH by lia.
  f_equal.
  - rewrite (zseq_shift g (s * Z.of_nat g)), map_map.
    apply map_ext_in. intros t Ht. apply in_zseq in Ht.
    replace (s * Z.of_nat g + t) with (t + s * Z.of_nat g) by lia.
    rewrite Z.div_add, Z.mod_add by lia.
    rewrite Z.div_small, Z.mod_small by lia. f_equal; lia.
  - do 2 f_equal. lia.
Qed.

(** ** Matrices, point by point *)

Section MatrixFacts.
Context {A : Type} `{Scalar A}.

Lemma rows_build (R C : Z) (f : Z -> Z -> A) : rows (build R C f) = R.
Proof. reflexivity. Qed.

Lemma cols_build (R C : Z) (f : Z -> Z -> A) : cols (build R C f) = C.
Proof. reflexivity. Qed.

Lemma continuous_build (R C : Z) (f : Z -> Z -> A) :
  0 <= R -> 0 <= C -> continuous (build R C f).
Proof.
  intros HR HC. unfold continuous, build; simpl.
  rewrite length_map, length_zrange. nia.
Qed.

Lemma at_build (R C : Z) (f : Z -> Z -> A) (r c : Z) :
  0 <= r < R -> 0 <= c < C -> at_ (build R C f) r c = f r c.
Proof.
  intros Hr Hc. unfold at_, build; simpl.
  assert (Hk : 0 <= r * C + c < R * C) by nia.
  rewrite (nth_map_in _ _ _ 0) by (rewrite length_zrange; lia).
  rewrite nth_zrange by assumption.
  replace (r * C + c) with (c + r * C) by lia.
  rewrite Z.div_add, Z.mod_add by lia.
  rewrite Z.div_small, Z.mod_small by lia. reflexivity.
Qed.

Lemma in_mat_spec (m : Mat A) (r c : Z) :
  in_mat m r c = true <-> 0 <= r < rows m /\ 0 <= c < cols m.
Proof. unfold in_mat. rewrite !andb_true_iff. lia. Qed.

Lemma in_rect_spec (rc : Rect) (r c : Z) :
  in_rect rc r c = true <->
  y rc <= r < y rc + height rc /\ x rc <= c < x rc + width rc.
Proof. unfold in_rect. rewrite !andb_true_iff. lia. Qed.

Lemma rect_inside_spec (m : Mat A) (rc : Rect) :
  rect_inside m rc = true <->
  0 <= x rc /\ 0 <= width rc /\ x rc + width rc <= cols m /\
  0 <= y rc /\ 0 <= height rc /\ y rc + height rc <= rows m.
Proof. unfold rect_inside. rewrite !andb_true_iff. lia. Qed.

(** Two matrices with the same header and the same elements are the same
    matrix. *)
Lemma Mat_ext (m1 m2 : Mat A) :
  continuous m1 -> continuous m2 ->
  rows m1 = rows m2 -> cols m1 = cols m2 ->
  (forall r c, 0 <= r < rows m1 -> 0 <= c < cols m1 ->
               at_ m1 r c = at_ m2 r c) ->
  m1 = m2.
Proof.
  destruct m1 as [R C d1], m2 as [R2 C2 d2]; unfold continuous, at_; simpl.
  intros (HR & HC & L1) (_ & _ & L2) <- <- Hat. f_equal.
  apply nth_ext with (d := zero) (d' := zero); [lia|].
  intros k Hk.
  assert (HCpos : 0 < C) by nia.
  pose proof (Z.div_mod (Z.of_nat k) C ltac:(lia)) as Hdm.
  pose proof (Z.mod_pos_bound (Z.of_nat k) C HCpos) as Hm.
  assert (Hd : 0 <= Z.of_nat k / C < R).
  { split; [apply Z.div_pos; lia|]. apply Z.div_lt_upper_bound; nia. }
  specialize (Hat _ _ Hd Hm).
  replace (Z.of_nat k / C * C + Z.of_nat k mod C) with (Z.of_nat k) in Hat by lia.
  now rewrite Nat2Z.id in Hat.
Qed.

Lemma copyTo_roi_ok (src I : Mat A) (frame : Rect) :
  rect_inside I frame = true ->
  exists D, copyTo_roi src I frame = Ok D /\
            rows D = rows I /\ cols D = cols I /\
            forall r c, in_mat I r c = true ->
              at_ D r c = if in_rect frame r c
                          then at_ src (r - y frame) (c - x frame)
                          else at_ I r c.
Proof.
  intros Hin. unfold copyTo_roi. rewrite Hin. eexists; split; [reflexivity|].
  split; [reflexivity|]. split; [reflexivity|].
  intros r c Hrc. apply in_mat_spec in Hrc. now rewrite at_build.
Qed.

Lemma copyTo_roi_out (src I : Mat A) (frame : Rect) :
  rect_inside I frame = false -> copyTo_roi src I frame = CvError.
Proof. intros Hout. unfold copyTo_roi. now rewrite Hout. Qed.

Lemma rect_inside_header (I D : Mat A) (frame : Rect) :
  rows D = rows I -> cols D = cols I ->
  rect_inside D frame = rect_inside I frame.
Proof. intros HR HC. unfold rect_inside. now rewrite HR, HC. Qed.

Lemma in_mat_header (I D : Mat A) (r c : Z) :
  rows D = rows I -> cols D = cols I -> in_mat D r c = in_mat I r c.
Proof. intros HR HC. unfold in_mat. now rewrite HR, HC. Qed.

Lemma roi_ok (I : Mat A) (frame : Rect) :
  rect_inside I frame = true ->
  roi I frame = Ok (build (height frame) (width frame)
                      (fun r c => at_ I (y frame + r) (x frame + c))).
Proof. intros Hin. unfold roi. now rewrite Hin. Qed.

End MatrixFacts.

(** ** Counting loops *)

Section Loops.
Context {St : Type}.
Variables (bound step : Z) (body : Z -> St -> result St).
Variable g : Z -> St -> St.

(** A loop whose body never leaves the normal path runs its body once for
    every multiple of the step below the bound. *)
Lemma for_step_count (cnt : nat) :
  forall (fuel : nat) (j0 : Z) (s : St),
    (cnt < fuel)%nat -> 0 < step ->
    (forall j, j0 <= j < j0 + Z.of_nat cnt -> j * step < bound) ->
    bound <= (j0 + Z.of_nat cnt) * step ->
    (forall j s', j0 <= j < j0 + Z.of_nat cnt ->
                  body (j * step) s' = Ok (g j s')) ->
    for_step fuel (j0 * step) bound step body s =
    Ok (fold_left (fun s' j => g j s') (zseq j0 cnt) s).
Proof.
  induction cnt as [|cnt IH]; intros fuel j0 s Hfuel Hstep Hin Hout Hbody.
  - destruct fuel as [|fuel]; [lia|]. simpl.
    destruct (Z.ltb_spec (j0 * step) bound); [lia | reflexivity].
  - destruct fuel as [|fuel]; [lia|]. cbn [for_step zseq fold_left].
    destruct (Z.ltb_spec (j0 * step) bound) as [_|Hge].
    + rewrite Hbody by lia. cbn [bind].
      replace (j0 * step + step) with ((j0 + 1) * step) by lia.
      apply IH; try lia.
      * intros j Hj. apply Hin. lia.
      * intros j s' Hj. apply Hbody. lia.
    + specialize (Hin j0 ltac:(lia)). lia.
Qed.

End Loops.

Lemma fold_left_app_flat_map {X Y : Type} (f : X -> list Y) (l : list X)
    (acc : list Y) :
  fold_left (fun s j => s ++ f j) l acc = acc ++ flat_map f l.
Proof.
  revert acc; induction l as [|a l IH]; intros acc; simpl.
  - now rewrite app_nil_r.
  - now rewrite IH, app_assoc.
Qed.

(** ** Tiling *)

Section Tiling.
Context {A : Type} `{Scalar A}.

Lemma flat_map_singleton {X Y : Type} (f : X -> Y) (l : list X) :
  flat_map (fun j => [f j]) l = map f l.
Proof. induction l as [|a l IH]; simpl; [reflexivity | now rewrite IH]. Qed.

(** The loops of [createBlocks] append the cells of the grid, the grid
    column varying slowest. *)
Lemma createBlocks_tiles (V : list (Mat A)) (I : Mat A) (N : Z) :
  rows I = cols I -> 0 < N -> createBlocks V I N = Ok (V ++ tiles I N).
Proof.
  intros Hsq HN. unfold createBlocks, tiles.
  rewrite <- Hsq, Z.eqb_refl. cbn [negb].
  replace (N <=? 0) with false by (symmetry; apply Z.leb_gt; lia).
  cbn [andb].
  set (M := rows I). set (G := M / N).
  pose proof (Z.div_mod M N ltac:(lia)) as Hdm.
  pose proof (Z.mod_pos_bound M N HN) as Hmod.
  fold G in Hdm.
  assert (Hcnt : (Z.to_nat G < loop_fuel M)%nat) by (unfold loop_fuel; nia).
  assert (Hin : forall j, 0 <= j < 0 + Z.of_nat (Z.to_nat G) ->
                          j * N < M - N + 1) by (intros j Hj; nia).
  assert (Hout : M - N + 1 <= (0 + Z.of_nat (Z.to_nat G)) * N) by nia.
  rewrite <- fold_left_app_flat_map.
  apply (@for_step_count _ (M - N + 1) N
           (fun i V0 => for_step (loop_fuel M) 0 (M - N + 1) N
              (fun j V1 => Vij <- roi I (mkRect i j N N) ;; Ok (V1 ++ [Vij])) V0)
           (fun gx V0 => V0 ++ map (fun gy => cell I N gx gy) (zrange G))
           (Z.to_nat G) (loop_fuel M) 0 V Hcnt HN Hin Hout).
  intros gx V0 Hgx.
  rewrite <- flat_map_singleton, <- fold_left_app_flat_map.
  apply (@for_step_count _ (M - N + 1) N
           (fun j V1 => Vij <- roi I (mkRect (gx * N) j N N) ;; Ok (V1 ++ [Vij]))
           (fun gy V1 => V1 ++ [cell I N gx gy])
           (Z.to_nat G) (loop_fuel M) 0 V0 Hcnt HN Hin Hout).
  intros gy V1 Hgy.
  rewrite roi_ok.
  - reflexivity.
  - apply rect_inside_spec; simpl. fold M. rewrite <- Hsq. fold M. nia.
Qed.

(** Block [k] is the cell at grid column [k / G] and grid row [k mod G]. *)
Lemma tiles_map (I : Mat A) (N : Z) :
  0 <= rows I -> 0 < N ->
  tiles I N =
  map (fun k => cell I N (k / (rows I / N)) (k mod (rows I / N)))
      (zrange (rows I / N * (rows I / N))).
Proof.
  intros HM HN. unfold tiles. set (G := rows I / N).
  assert (HG : 0 <= G) by (apply Z.div_pos; lia).
  destruct (Z.eq_dec G 0) as [->|HG0]; [reflexivity|].
  unfold zrange at 1 2 3.
  rewrite (flat_map_zseq (fun gx gy => cell I N gx gy)) by lia.
  rewrite Z2Nat.id by lia.
  replace (0 * G) with 0 by lia.
  now rewrite <- Z2Nat.inj_mul by lia.
Qed.

Lemma length_tiles (I : Mat A) (N : Z) :
  0 <= rows I -> 0 < N ->
  Z.of_nat (length (tiles I N)) = rows I / N * (rows I / N).
Proof.
  intros HM HN. rewrite tiles_map, length_map, length_zrange by assumption.
  assert (0 <= rows I / N) by (apply Z.div_pos; lia). nia.
Qed.

Lemma nth_tiles (I : Mat A) (N k : Z) (d : Mat A) :
  0 <= rows I -> 0 < N -> 0 <= k < rows I / N * (rows I / N) ->
  nth (Z.to_nat k) (tiles I N) d =
  cell I N (k / (rows I / N)) (k mod (rows I / N)).
Proof.
  intros HM HN Hk. rewrite tiles_map by assumption.
  rewrite (nth_map_in _ _ _ 0) by (rewrite length_zrange; lia).
  now rewrite nth_zrange.
Qed.

Lemma tiles_headers (I : Mat A) (N : Z) :
  Forall (fun b => rows b = N /\ cols b = N) (tiles I N).
Proof.
  unfold tiles. apply Forall_forall. intros b Hb.
  apply in_flat_map in Hb. destruct Hb as (gx & _ & Hb).
  apply in_map_iff in Hb. destruct Hb as (gy & <- & _). now split.
Qed.

End Tiling.

(** ** Reassembly *)

Section Assembly.
Context {A : Type} `{Scalar A}.

Lemma block_frame_nonneg (Vi : Mat A) (i n : Z) :
  0 <= i -> 0 < n ->
  block_frame Vi i n =
  mkRect (i / n * cols Vi) (i mod n * rows Vi) (cols Vi) (rows Vi).
Proof.
  intros Hi Hn. unfold block_frame.
  now rewrite Z.quot_div_nonneg, Z.rem_mod_nonneg by lia.
Qed.

(** A quotient pinned between two multiples. *)
Lemma div_between (r N b : Z) :
  0 < N -> (b * N <= r < b * N + N <-> r / N = b).
Proof.
  intros HN. split.
  - intros Hr. symmetry. apply (Z.div_unique r N b (r - b * N)); lia.
  - intros <-. pose proof (Z.div_mod r N ltac:(lia)).
    pose proof (Z.mod_pos_bound r N HN). lia.
Qed.

Lemma grid_index_unique (n p q i : Z) :
  0 < n -> 0 <= p ->
  (p < n /\ q * n + p = i <-> p = i mod n /\ q = i / n).
Proof.
  intros Hn Hp. split.
  - intros (Hlt & <-). split.
    + apply (Z.mod_unique (q * n + p) n q p); lia.
    + apply (Z.div_unique (q * n + p) n q p); lia.
  - intros (-> & ->). pose proof (Z.div_mod i n ltac:(lia)).
    pose proof (Z.mod_pos_bound i n Hn). lia.
Qed.

(** The frame of block [i] holds exactly the pixels whose grid cell has
    index [i]. *)
Lemma in_rect_block_frame (Vi : Mat A) (i n N r c : Z) :
  0 < n -> 0 < N -> 0 <= i -> rows Vi = N -> cols Vi = N ->
  0 <= r -> 0 <= c ->
  in_rect (block_frame Vi i n) r c =
  (r / N <? n) && (c / N * n + r / N =? i).
Proof.
  intros Hn HN Hi HR HC Hr Hc. rewrite block_frame_nonneg by assumption.
  apply eq_true_iff_eq. rewrite in_rect_spec, andb_true_iff; simpl.
  rewrite HR, HC, Z.ltb_lt, Z.eqb_eq, !div_between by assumption.
  rewrite (grid_index_unique n (r / N) (c / N) i) by
    (try apply Z.div_pos; lia).
  tauto.
Qed.

Lemma in_rect_block_frame_offsets (Vi : Mat A) (i n N r c : Z) :
  0 < n -> 0 < N -> 0 <= i -> rows Vi = N -> cols Vi = N ->
  in_rect (block_frame Vi i n) r c = true ->
  r - y (block_frame Vi i n) = r mod N /\
  c - x (block_frame Vi i n) = c mod N.
Proof.
  intros Hn HN Hi HR HC. rewrite block_frame_nonneg by assumption.
  rewrite in_rect_spec; simpl. rewrite HR, HC.
  rewrite !div_between by assumption. intros (Hr & Hc).
  rewrite <- Hr, <- Hc.
  pose proof (Z.div_mod r N ltac:(lia)). pose proof (Z.div_mod c N ltac:(lia)).
  lia.
Qed.

(** Either every frame fits and the loop ends normally, or some frame
    does not and the loop raises. *)
Lemma assemble_from_cases (V : list (Mat A)) :
  forall (i : Z) (I : Mat A) (n : Z),
    n <> 0 ->
    (exists D, assemble_from V i I n = Ok D /\
               rows D = rows I /\ cols D = cols I /\
               forall k Vk, nth_error V k = Some Vk ->
                 rect_inside I (block_frame Vk (i + Z.of_nat k) n) = true)
    \/
    (assemble_from V i I n = CvError /\
     exists k Vk, nth_error V k = Some Vk /\
                  rect_inside I (block_frame Vk (i + Z.of_nat k) n) = false).
Proof.
  induction V as [|Vi V IH]; intros i I n Hn.
  - left. exists I. repeat split. intros [|k] Vk; discriminate.
  - cbn [assemble_from]. apply Z.eqb_neq in Hn as Hn'. rewrite Hn'.
    destruct (rect_inside I (block_frame Vi i n)) eqn:Hin.
    + destruct (copyTo_roi_ok Vi I _ Hin) as (I' & -> & HR & HC & _).
      cbn [bind].
      destruct (IH (i + 1) I' n Hn)
        as [(D & HD & HR' & HC' & Hall) | (HD & k & Vk & Hk & Hout)].
      * left. exists D. split; [assumption|].
        split; [congruence|]. split; [congruence|].
        intros [|k] Vk Hk; simpl in Hk.
        -- injection Hk as <-. now rewrite Z.add_0_r.
        -- specialize (Hall k Vk Hk).
           rewrite (rect_inside_header _ I' _ HR HC) in Hall.
           now replace (i + Z.of_nat (S k)) with (i + 1 + Z.of_nat k) by lia.
      * right. split; [assumption|]. exists (S k), Vk. split; [assumption|].
        rewrite (rect_inside_header _ I' _ HR HC) in Hout.
        now replace (i + Z.of_nat (S k)) with (i + 1 + Z.of_nat k) by lia.
    + right. rewrite (copyTo_roi_out _ _ _ Hin). split; [reflexivity|].
      exists 0%nat, Vi. split; [reflexivity|]. now rewrite Z.add_0_r.
Qed.

Lemma assemble_from_continuous (V : list (Mat A)) :
  forall (i : Z) (I D : Mat A) (n : Z),
    continuous I -> assemble_from V i I n = Ok D -> continuous D.
Proof.
  induction V as [|Vi V IH]; intros i I D n Hc HD.
  - simpl in HD. now injection HD as <-.
  - cbn [assemble_from] in HD.
    destruct (n =? 0); [discriminate|].
    unfold copyTo_roi in HD.
    destruct (rect_inside I (block_frame Vi i n)); [|discriminate].
    cbn [bind] in HD. apply (IH _ _ _ _ (continuous_build _ _ _
      (proj1 Hc) (proj1 (proj2 Hc))) HD).
Qed.

(** A pixel that no frame covers keeps the value it had. *)
Lemma assemble_from_frame (V : list (Mat A)) :
  forall (i : Z) (I D : Mat A) (n : Z),
    assemble_from V i I n = Ok D ->
    forall r c, in_mat I r c = true ->
      (forall k Vk, nth_error V k = Some Vk ->
         in_rect (block_frame Vk (i + Z.of_nat k) n) r c = false) ->
      at_ D r c = at_ I r c.
Proof.
  induction V as [|Vi V IH]; intros i I D n HD r c Hrc Hout.
  - simpl in HD. now injection HD as <-.
  - cbn [assemble_from] in HD.
    destruct (n =? 0); [discriminate|].
    destruct (rect_inside I (block_frame Vi i n)) eqn:Hin;
      [|rewrite (copyTo_roi_out _ _ _ Hin) in HD; discriminate].
    destruct (copyTo_roi_ok Vi I _ Hin) as (I' & HI' & HR & HC & Hat).
    rewrite HI' in HD. cbn [bind] in HD.
    rewrite (IH _ _ _ _ HD r c).
    + rewrite (Hat r c Hrc).
      specialize (Hout 0%nat Vi eq_refl). rewrite Z.add_0_r in Hout.
      now rewrite Hout.
    + now rewrite (in_mat_header _ I' _ _ HR HC).
    + intros k Vk Hk. specialize (Hout (S k) Vk Hk).
      now replace (i + 1 + Z.of_nat k) with (i + Z.of_nat (S k)) by lia.
Qed.

(** With blocks of one size [N], every pixel of the result comes from
    the block whose index is that of the pixel's grid cell, if there is
    one. *)
Lemma assemble_from_uniform (V : list (Mat A)) :
  forall (i : Z) (I D : Mat A) (n N : Z),
    0 < n -> 0 < N -> 0 <= i ->
    Forall (fun b => rows b = N /\ cols b = N) V ->
    assemble_from V i I n = Ok D ->
    forall r c, in_mat I r c = true ->
      at_ D r c =
      let idx := c / N * n + r / N in
      if (r / N <? n) && (i <=? idx) && (idx <? i + Z.of_nat (length V))
      then at_ (nth (Z.to_nat (idx - i)) V (zeros 0 0)) (r mod N) (c mod N)
      else at_ I r c.
Proof.
  induction V as [|Vi V IH]; intros i I D n N Hn HN Hi Hall HD r c Hrc.
  - simpl in HD. injection HD as <-. cbn zeta.
    replace (i + Z.of_nat (length (@nil (Mat A)))) with i by (simpl; lia).
    destruct (r / N <? n); simpl; [|reflexivity].
    destruct (Z.leb_spec i (c / N * n + r / N)); simpl; [|reflexivity].
    destruct (Z.ltb_spec (c / N * n + r / N) i); [lia | reflexivity].
  - cbn [assemble_from] in HD.
    destruct (n =? 0); [discriminate|].
    destruct (rect_inside I (block_frame Vi i n)) eqn:Hin;
      [|rewrite (copyTo_roi_out _ _ _ Hin) in HD; discriminate].
    destruct (copyTo_roi_ok Vi I _ Hin) as (I' & HI' & HR & HC & Hat).
    rewrite HI' in HD. cbn [bind] in HD.
    apply Forall_cons_iff in Hall. destruct Hall as ((HRi & HCi) & Hall').
    assert (Hrc' : in_mat I' r c = true)
      by now rewrite (in_mat_header _ I' _ _ HR HC).
    assert (Hi' : 0 <= i + 1) by lia.
    rewrite (IH (i + 1) I' D n N Hn HN Hi' Hall' HD r c Hrc').
    rewrite (Hat r c Hrc). cbn zeta.
    apply in_mat_spec in Hrc.
    assert (Hframe := in_rect_block_frame Vi i n N r c Hn HN Hi HRi HCi
                        (proj1 (proj1 Hrc)) (proj1 (proj2 Hrc))).
    assert (Hoff := in_rect_block_frame_offsets Vi i n N r c Hn HN Hi HRi HCi).
    set (idx := c / N * n + r / N) in *.
    cbn [length]. rewrite Nat2Z.inj_succ.
    destruct (r / N <? n) eqn:Hp; cbn [andb] in *.
    + destruct (Z.eqb_spec idx i) as [Heq|Hneq].
      * rewrite Hframe. destruct (Hoff Hframe) as (-> & ->).
        replace ((i + 1 <=? idx)) with false by (symmetry; apply Z.leb_gt; lia).
        replace ((i <=? idx)) with true by (symmetry; apply Z.leb_le; lia).
        replace (idx <? i + Z.succ (Z.of_nat (length V))) with true
          by (symmetry; apply Z.ltb_lt; lia).
        cbn [andb]. replace (idx - i) with 0 by lia. reflexivity.
      * rewrite Hframe.
        destruct (Z.leb_spec (i + 1) idx) as [Hle|Hgt]; cbn [andb].
        -- replace (i <=? idx) with true by (symmetry; apply Z.leb_le; lia).
           replace (i + 1 + Z.of_nat (length V))
             with (i + Z.succ (Z.of_nat (length V))) by lia.
           cbn [andb].
           destruct (idx <? i + Z.succ (Z.of_nat (length V))); [|reflexivity].
           replace (Z.to_nat (idx - i)) with (S (Z.to_nat (idx - (i + 1))))
             by lia.
           reflexivity.
        -- replace (i <=? idx) with false by (symmetry; apply Z.leb_gt; lia).
           reflexivity.
    + now rewrite Hframe.
Qed.

End Assembly.

(** ** The tiler: count, order, round trip *)

Section TilerClaims.
Context {A : Type} `{Scalar A}.

Lemma at_cell (I : Mat A) (N gx gy r c : Z) :
  0 <= r < N -> 0 <= c < N ->
  at_ (cell I N gx gy) r c = at_ I (gy * N + r) (gx * N + c).
Proof. intros Hr Hc. unfold cell. now rewrite at_build. Qed.

(** The grid cell of a pixel, and the pixel inside it. *)
Lemma at_cell_of_pixel (I : Mat A) (N r c : Z) :
  0 < N -> 0 <= r -> 0 <= c ->
  at_ (cell I N (c / N) (r / N)) (r mod N) (c mod N) = at_ I r c.
Proof.
  intros HN Hr Hc.
  pose proof (Z.mod_pos_bound r N HN). pose proof (Z.mod_pos_bound c N HN).
  rewrite at_cell by assumption.
  pose proof (Z.div_mod r N ltac:(lia)). pose proof (Z.div_mod c N ltac:(lia)).
  f_equal; lia.
Qed.

Lemma grid_index_bound (G p q : Z) :
  0 <= p < G -> 0 <= q < G -> 0 <= q * G + p < G * G.
Proof. nia. Qed.

(** **** C8 *)

(** C8: a square image of side [M], tiled with block size [N] where
    [0 < N <= M], gives exactly [(M / N) * (M / N)] blocks, each a full
    [N] by [N] block: what is left over along either axis is in no
    block. *)
Theorem createBlocks_count (I : Mat A) (M N : Z) :
  rows I = M -> cols I = M -> 0 < N <= M ->
  exists V, createBlocks [] I N = Ok V /\
            Z.of_nat (length V) = M / N * (M / N) /\
            Forall (fun b => rows b = N /\ cols b = N) V.
Proof.
  intros HR HC HN. exists (tiles I N).
  rewrite createBlocks_tiles by lia. split; [reflexivity|].
  split.
  - rewrite length_tiles by lia. now rewrite HR.
  - apply tiles_headers.
Qed.

(** **** C4 *)

(** C4: for a square image whose side is an exact multiple of the block
    size [N], reassembling the blocks of the tiling with grid width
    [I.cols / N], into a zero image of the same size, gives the image
    back. *)
Theorem tile_reassemble_identity (I : Mat A) (N : Z) :
  continuous I -> rows I = cols I -> 0 < N -> rows I mod N = 0 ->
  exists V, createBlocks [] I N = Ok V /\
            assembleBlocks V (zeros (rows I) (cols I)) (cols I / N) = Ok I.
Proof.
  intros Hcont Hsq HN Hmul. exists (tiles I N).
  rewrite createBlocks_tiles by assumption. split; [reflexivity|].
  rewrite <- Hsq. set (M := rows I) in *. set (G := M / N).
  assert (HM : 0 <= M) by apply Hcont.
  assert (HMG : M = G * N).
  { pose proof (Z.div_mod M N ltac:(lia)) as Hdm. fold G in Hdm. lia. }
  assert (HG : 0 <= G) by (apply Z.div_pos; lia).
  assert (Hz : continuous (zeros M M)) by (apply continuous_build; lia).
  unfold assembleBlocks.
  destruct (Z.eq_dec G 0) as [HG0|HG0].
  - assert (HM0 : M = 0) by lia.
    unfold tiles. fold M. fold G. rewrite HG0. simpl. f_equal.
    apply Mat_ext; try assumption; try reflexivity.
    intros r c Hr _. change (rows (zeros M M)) with M in Hr. lia.
  - destruct (assemble_from_cases (tiles I N) 0 (zeros M M) G HG0)
      as [(D & HD & HRD & HCD & _) | (_ & k & Vk & Hk & Hout)].
    + rewrite HD. f_equal.
      unfold zeros in HRD, HCD. rewrite rows_build in HRD.
      rewrite cols_build in HCD.
      apply Mat_ext; try assumption.
      * apply (assemble_from_continuous _ _ _ _ _ Hz HD).
      * lia.
      * intros r c Hr Hc. rewrite HRD in Hr. rewrite HCD in Hc.
        assert (Hrc : in_mat (zeros M M) r c = true)
          by (apply in_mat_spec; unfold zeros;
              rewrite rows_build, cols_build; lia).
        rewrite (assemble_from_uniform (tiles I N) 0 (zeros M M) D G N
                   ltac:(lia) HN ltac:(lia) (tiles_headers I N) HD r c Hrc).
        cbn zeta.
        assert (Hp : 0 <= r / N < G).
        { split; [apply Z.div_pos; lia|].
          apply Z.div_lt_upper_bound; nia. }
        assert (Hq : 0 <= c / N < G).
        { split; [apply Z.div_pos; lia|].
          apply Z.div_lt_upper_bound; nia. }
        pose proof (grid_index_bound G _ _ Hp Hq) as Hidx.
        set (idx := c / N * G + r / N) in *.
        pose proof (length_tiles I N HM HN) as L. fold M in L. fold G in L.
        replace (r / N <? G) with true by (symmetry; apply Z.ltb_lt; lia).
        replace (0 <=? idx) with true by (symmetry; apply Z.leb_le; lia).
        replace (idx <? 0 + Z.of_nat (length (tiles I N))) with true
          by (symmetry; apply Z.ltb_lt; lia).
        cbn [andb]. rewrite Z.sub_0_r.
        rewrite nth_tiles by (fold M; fold G; lia). fold M. fold G.
        destruct (proj1 (grid_index_unique G (r / N) (c / N) idx
                           ltac:(lia) ltac:(lia))) as (E1 & E2);
          [split; [lia | reflexivity]|].
        rewrite <- E1, <- E2.
        apply at_cell_of_pixel; lia.
    + exfalso.
      assert (Hklen : (k < length (tiles I N))%nat)
        by (apply nth_error_Some; congruence).
      pose proof (length_tiles I N HM HN) as L. fold M in L. fold G in L.
      pose proof (tiles_headers I N) as Hh.
      rewrite Forall_forall in Hh.
      destruct (Hh Vk (nth_error_In _ _ Hk)) as (HRk & HCk).
      assert (Hin : rect_inside (zeros M M)
                      (block_frame Vk (Z.of_nat k) G) = true).
      { rewrite block_frame_nonneg by lia.
        apply rect_inside_spec.
        change (rows (zeros M M)) with M. change (cols (zeros M M)) with M.
        cbn [x y width height]. rewrite HRk, HCk.
        pose proof (Z.div_mod (Z.of_nat k) G ltac:(lia)).
        pose proof (Z.mod_pos_bound (Z.of_nat k) G ltac:(lia)).
        assert (0 <= Z.of_nat k / G < G).
        { split; [apply Z.div_pos; lia|].
          apply Z.div_lt_upper_bound; nia. }
        repeat split; nia. }
      rewrite Z.add_0_l in Hout. congruence.
Qed.

End TilerClaims.

Section TilerOrder.
Context {A : Type} `{Scalar A}.

(** **** C6 *)

(** C6, as the code has it: tiling visits the grid column by column
    (block [i] is the cell at grid column [i / G] and grid row
    [i mod G]), and reassembly writes block [i] of a list of [N] by [N]
    blocks at column [(i / n) * N] and row [(i mod n) * N]. *)
Theorem tiling_order_and_placement (I : Mat A) (N : Z) :
  rows I = cols I -> 0 <= rows I -> 0 < N ->
  exists V, createBlocks [] I N = Ok V /\
    (forall i, 0 <= i < rows I / N * (rows I / N) ->
       nth (Z.to_nat i) V (zeros 0 0) =
       build N N (fun r c => at_ I (i mod (rows I / N) * N + r)
                                   (i / (rows I / N) * N + c))) /\
    (forall (Vb : list (Mat A)) (dst D : Mat A) (n i : Z),
       0 < n -> Forall (fun b => rows b = N /\ cols b = N) Vb ->
       assembleBlocks Vb dst n = Ok D ->
       0 <= i < Z.of_nat (length Vb) ->
       block_frame (nth (Z.to_nat i) Vb (zeros 0 0)) i n =
         mkRect (i / n * N) (i mod n * N) N N /\
       forall r c, 0 <= r < N -> 0 <= c < N ->
         at_ D (i mod n * N + r) (i / n * N + c) =
         at_ (nth (Z.to_nat i) Vb (zeros 0 0)) r c).
Proof.
  intros Hsq HM HN. exists (tiles I N).
  rewrite createBlocks_tiles by assumption. split; [reflexivity|]. split.
  - intros i Hi. now rewrite nth_tiles.
  - intros Vb dst D n i Hn Hall HD Hi.
    assert (Hnth : nth_error Vb (Z.to_nat i) =
                   Some (nth (Z.to_nat i) Vb (zeros 0 0)))
      by (apply nth_error_nth'; lia).
    set (Vi := nth (Z.to_nat i) Vb (zeros 0 0)) in *.
    rewrite Forall_forall in Hall.
    destruct (Hall Vi (nth_error_In _ _ Hnth)) as (HRi & HCi).
    rewrite block_frame_nonneg, HRi, HCi by lia.
    split; [reflexivity|]. intros r c Hr Hc.
    unfold assembleBlocks in HD.
    destruct (assemble_from_cases Vb 0 dst n ltac:(lia))
      as [(D' & HD' & _ & _ & Hins) | (HD' & _)]; [|congruence].
    specialize (Hins _ _ Hnth).
    rewrite Z.add_0_l, Z2Nat.id, block_frame_nonneg, HRi, HCi in Hins by lia.
    apply rect_inside_spec in Hins; cbn [x y width height] in Hins.
    pose proof (Z.mod_pos_bound i n Hn) as Hmod.
    assert (Hdiv : 0 <= i / n) by (apply Z.div_pos; lia).
    assert (Hrc : in_mat dst (i mod n * N + r) (i / n * N + c) = true)
      by (apply in_mat_spec; nia).
    rewrite (assemble_from_uniform Vb 0 dst D n N Hn HN ltac:(lia)
               (proj2 (Forall_forall _ _) Hall) HD _ _ Hrc).
    cbn zeta.
    assert (Er : (i mod n * N + r) / N = i mod n)
      by (symmetry; apply (Z.div_unique _ N _ r); lia).
    assert (Ec : (i / n * N + c) / N = i / n)
      by (symmetry; apply (Z.div_unique _ N _ c); lia).
    assert (Er' : (i mod n * N + r) mod N = r)
      by (symmetry; apply (Z.mod_unique _ N (i mod n) r); lia).
    assert (Ec' : (i / n * N + c) mod N = c)
      by (symmetry; apply (Z.mod_unique _ N (i / n) c); lia).
    rewrite Er, Ec, Er', Ec'.
    pose proof (Z.div_mod i n ltac:(lia)) as Hdm.
    replace (i / n * n + i mod n) with i by lia.
    replace (i mod n <? n) with true by (symmetry; apply Z.ltb_lt; lia).
    replace (0 <=? i) with true by (symmetry; apply Z.leb_le; lia).
    replace (i <? 0 + Z.of_nat (length Vb)) with true
      by (symmetry; apply Z.ltb_lt; lia).
    cbn [andb]. now rewrite Z.sub_0_r.
Qed.

End TilerOrder.

(** ** Selection and embedding *)

Section Buffers.
Context {A : Type} `{Scalar A}.

Lemma length_list_set (l : list A) (k : nat) (v : A) :
  length (list_set l k v) = length l.
Proof.
  revert k; induction l as [|a l IH]; intros [|k]; simpl; auto.
Qed.

Lemma nth_list_set_same (l : list A) (k : nat) (v d : A) :
  (k < length l)%nat -> nth k (list_set l k v) d = v.
Proof.
  revert k; induction l as [|a l IH]; intros [|k] Hk; simpl in *;
    try lia; auto with arith.
Qed.

Lemma nth_list_set_other (l : list A) (k j : nat) (v d : A) :
  j <> k -> nth j (list_set l k v) d = nth j l d.
Proof.
  revert k j; induction l as [|a l IH]; intros [|k] [|j] Hjk; simpl;
    try reflexivity; try congruence.
  apply IH. congruence.
Qed.

Lemma set_at_ok (m : Mat A) (p : Point) (v : A) :
  in_mat m (py p) (px p) = true ->
  set_at m p v =
  Ok (mkMat (rows m) (cols m)
        (list_set (data m) (Z.to_nat (py p * cols m + px p)) v)).
Proof. intros Hin. unfold set_at. now rewrite Hin. Qed.

Lemma continuous_set (m : Mat A) (k : nat) (v : A) :
  continuous m ->
  continuous (mkMat (rows m) (cols m) (list_set (data m) k v)).
Proof.
  unfold continuous; simpl. now rewrite length_list_set.
Qed.

(** Distinct positions of a matrix sit at distinct offsets. *)
Lemma offset_inj (C r c r' c' : Z) :
  0 <= c < C -> 0 <= c' < C -> 0 <= r -> 0 <= r' ->
  r * C + c = r' * C + c' -> r = r' /\ c = c'.
Proof.
  intros Hc Hc' Hr Hr' E.
  assert (E1 : r = (r * C + c) / C) by (apply (Z.div_unique _ C r c); lia).
  assert (E2 : r' = (r * C + c) / C)
    by (apply (Z.div_unique _ C r' c'); lia).
  split; [congruence|]. assert (r = r') by congruence. subst r'. lia.
Qed.

End Buffers.

Section Selection.

Lemma minMaxIdx_range (l : list float) :
  forall (k : Z) (st : MinMax),
    0 <= minIdx st < k -> 0 <= maxIdx st < k ->
    0 <= minIdx (minMaxIdx_ l k st) < k + Z.of_nat (length l) /\
    0 <= maxIdx (minMaxIdx_ l k st) < k + Z.of_nat (length l).
Proof.
  induction l as [|v l IH]; intros k st Hmin Hmax.
  - simpl. lia.
  - cbn [minMaxIdx_ length]. rewrite Nat2Z.inj_succ.
    match goal with
    | |- context [minMaxIdx_ l (k + 1) ?s] =>
        destruct (IH (k + 1) s) as (I1 & I2)
    end.
    + destruct (SFltb v (minVal st)); simpl;
        match goal with
        | |- context [if ?b then _ else _] => destruct b
        end; simpl; lia.
    + destruct (SFltb v (minVal st)); simpl;
        match goal with
        | |- context [if ?b then _ else _] => destruct b
        end; simpl; lia.
    + lia.
Qed.

Lemma ofs2loc_in_mat (m : Mat float) (ofs : Z) :
  continuous m -> 1 <= ofs <= Z.of_nat (length (data m)) ->
  in_mat m (py (ofs2loc m ofs)) (px (ofs2loc m ofs)) = true.
Proof.
  intros (HR & HC & Hlen) Hofs. unfold ofs2loc.
  replace (0 <? ofs) with true by (symmetry; apply Z.ltb_lt; lia).
  cbn [px py]. apply in_mat_spec.
  assert (HCpos : 0 < cols m) by nia.
  pose proof (Z.mod_pos_bound (ofs - 1) (cols m) HCpos).
  split; [|assumption]. split.
  - apply Z.div_pos; lia.
  - apply Z.div_lt_upper_bound; nia.
Qed.

(** On a non-empty matrix both locations lie inside it. *)
Lemma minMaxLoc_in_mat (m : Mat float) :
  continuous m -> empty m = false ->
  in_mat m (py (snd (minMaxLoc m))) (px (snd (minMaxLoc m))) = true.
Proof.
  intros Hc He. unfold minMaxLoc. cbn [snd]. rewrite He. cbn [negb andb].
  apply ofs2loc_in_mat; [assumption|].
  match goal with
  | |- context [minMaxIdx_ ?l 1 ?s] =>
      destruct (minMaxIdx_range l 1 s) as (_ & I2); simpl; try lia;
      set (st := minMaxIdx_ l 1 s) in *
  end.
  assert (0 < Z.of_nat (length (data m))).
  { destruct Hc as (HR & HC & Hlen). unfold empty in He.
    apply Z.eqb_neq in He. nia. }
  destruct (Z.eqb_spec (maxIdx st) 0); lia.
Qed.

Lemma significant_loc_ok (Vi : Mat float) :
  continuous Vi -> empty Vi = false ->
  exists p, significant_loc Vi = Ok p /\
            in_mat Vi (py p) (px p) = true.
Proof.
  intros Hc He. unfold significant_loc.
  rewrite set_at_ok by now apply minMaxLoc_in_mat.
  cbn [bind]. eexists; split; [reflexivity|].
  match goal with
  | |- in_mat _ (py (snd (minMaxLoc ?t))) _ = true =>
      change (in_mat Vi) with (in_mat t);
      apply (minMaxLoc_in_mat t)
  end.
  - now apply continuous_set.
  - exact He.
Qed.

Lemma bit_identical_refl (a : float) : bit_identical a a = true.
Proof.
  destruct a as [s|s| |s m e]; simpl; try reflexivity;
    try apply Bool.eqb_reflx.
  now rewrite Bool.eqb_reflx, Pos.eqb_refl, Z.eqb_refl.
Qed.

Lemma changed_count_refl (l : list float) : changed_count l l = 0%nat.
Proof.
  induction l as [|a l IH]; simpl; [reflexivity|].
  now rewrite bit_identical_refl, IH.
Qed.

Lemma changed_count_set (l : list float) (k : nat) (v : float) :
  (changed_count l (list_set l k v) <= 1)%nat.
Proof.
  revert k; induction l as [|a l IH]; intros [|k]; simpl; try lia.
  - rewrite changed_count_refl. destruct (bit_identical a v); simpl; lia.
  - rewrite bit_identical_refl. simpl. apply IH.
Qed.

(** What one call of [placeWatermark] does to a non-empty block. *)
Lemma placeWatermark_effect (Vi : Mat float) (w : float) :
  continuous Vi -> empty Vi = false ->
  exists p Vi',
    significant_loc Vi = Ok p /\
    in_mat Vi (py p) (px p) = true /\
    placeWatermark Vi w = Ok Vi' /\
    rows Vi' = rows Vi /\ cols Vi' = cols Vi /\
    at_ Vi' (py p) (px p) = fadd (at_ Vi (py p) (px p)) (fmul half w) /\
    (forall r c, in_mat Vi r c = true -> (r, c) <> (py p, px p) ->
                 at_ Vi' r c = at_ Vi r c) /\
    (changed_count (data Vi) (data Vi') <= 1)%nat.
Proof.
  intros Hc He.
  destruct (significant_loc_ok Vi Hc He) as (p & Hp & Hin).
  exists p. eexists. split; [exact Hp|]. split; [exact Hin|].
  unfold placeWatermark. rewrite Hp. cbn [bind].
  unfold get_at, at_rc. rewrite Hin. cbn [bind].
  rewrite set_at_ok by assumption.
  split; [reflexivity|]. split; [reflexivity|]. split; [reflexivity|].
  apply in_mat_spec in Hin. destruct Hc as (HR & HC & Hlen).
  split; [|split].
  - unfold at_ at 1. cbn [data cols].
    apply nth_list_set_same. nia.
  - intros r c Hrc Hne. apply in_mat_spec in Hrc.
    unfold at_ at 1. cbn [data cols].
    apply nth_list_set_other. intros E.
    apply Z2Nat.inj in E; try nia.
    apply offset_inj in E; try lia.
    destruct E; congruence.
  - cbn [data]. apply changed_count_set.
Qed.

Lemma placeWatermark_ok (Vi : Mat float) (w : float) :
  continuous Vi -> empty Vi = false ->
  exists Vi', placeWatermark Vi w = Ok Vi'.
Proof.
  intros Hc He.
  destruct (placeWatermark_effect Vi w Hc He) as (p & Vi' & _ & _ & E & _).
  now exists Vi'.
Qed.

(** **** C3 *)

(** C3, as the code has it: on a non-empty block, embedding writes one
    coefficient, the selected one, which becomes its old value plus
    [0.5 * w] in float arithmetic; every other coefficient is the one of
    the input, so that at most one coefficient changes. *)
Theorem placeWatermark_single_write (Vi : Mat float) (w : float) :
  continuous Vi -> empty Vi = false ->
  exists p Vi',
    significant_loc Vi = Ok p /\
    in_mat Vi (py p) (px p) = true /\
    placeWatermark Vi w = Ok Vi' /\
    rows Vi' = rows Vi /\ cols Vi' = cols Vi /\
    at_ Vi' (py p) (px p) = fadd (at_ Vi (py p) (px p)) (fmul half w) /\
    (forall r c, in_mat Vi r c = true -> (r, c) <> (py p, px p) ->
                 at_ Vi' r c = at_ Vi r c) /\
    (changed_count (data Vi) (data Vi') <= 1)%nat.
Proof. exact (placeWatermark_effect Vi w). Qed.

(** With a zero watermark value the block comes back as it went in: no
    coefficient changes. *)
Lemma placeWatermark_zero_changes_nothing :
  let Vi := block_of 2 2 [10; 3; 0; 0] in
  exists Vi', placeWatermark Vi (of_Z 0) = Ok Vi' /\
              changed_count (data Vi) (data Vi') = 0%nat /\
              Vi' = Vi.
Proof. eexists. split; [vm_compute; reflexivity|]. split; reflexivity. Qed.

Lemma placeWatermark_single_write_witness :
  let Vi := block_of 2 2 [10; 3; 0; 0] in
  exists p Vi',
    significant_loc Vi = Ok p /\
    in_mat Vi (py p) (px p) = true /\
    placeWatermark Vi (of_Z 1) = Ok Vi' /\
    rows Vi' = rows Vi /\ cols Vi' = cols Vi /\
    at_ Vi' (py p) (px p) = fadd (at_ Vi (py p) (px p)) (fmul half (of_Z 1)) /\
    (forall r c, in_mat Vi r c = true -> (r, c) <> (py p, px p) ->
                 at_ Vi' r c = at_ Vi r c) /\
    (changed_count (data Vi) (data Vi') <= 1)%nat.
Proof.
  apply (placeWatermark_single_write (block_of 2 2 [10; 3; 0; 0]) (of_Z 1)).
  - repeat split; simpl; lia.
  - reflexivity.
Defined.

(** **** C1 *)

(** C1 on the code: for the transform of a flat block (only the DC term
    is not zero) the coordinate selected is (0,0), and it is the DC term
    that the embedding changes. *)
Theorem placeWatermark_perturbs_dc :
  let Vi := block_of 8 8 (4 :: repeat 0 63) in
  significant_loc Vi = Ok (mkPoint 0 0) /\
  exists Vi', placeWatermark Vi (of_Z 1) = Ok Vi' /\
              at_ Vi' 0 0 = fadd (of_Z 4) (fmul half (of_Z 1)) /\
              at_ Vi' 0 0 <> at_ Vi 0 0.
Proof.
  split; [vm_compute; reflexivity|].
  eexists. split; [vm_compute; reflexivity|].
  split; [vm_compute; reflexivity|]. vm_compute. discriminate.
Qed.

(** Zeros met after a maximum that is not below zero do not displace it. *)
Lemma minMaxIdx_zeros {X : Type} (l : list X) :
  forall k st,
    SFltb (maxVal st) (@zero float _) = false ->
    maxIdx (minMaxIdx_ (map (fun _ => zero) l) k st) = maxIdx st.
Proof.
  induction l as [|a l IH]; intros k st Hmax; [reflexivity|].
  cbn [map minMaxIdx_].
  destruct (SFltb (@zero float _) (minVal st)).
  - cbn [maxVal]. rewrite Hmax. now rewrite IH.
  - rewrite Hmax. now rewrite IH.
Qed.

(** A buffer whose first element is not below zero, followed by zeros: the
    maximum is located at (0,0). *)
Lemma minMaxLoc_dc_only {X : Type} (R C : Z) (d : float) (l : list X) :
  0 < R -> 0 < C ->
  SFltb (S754_infinity true) d = true -> SFltb d (@zero float _) = false ->
  snd (minMaxLoc (mkMat R C (d :: map (fun _ => zero) l))) = mkPoint 0 0.
Proof.
  intros HR HC Hd Hd0. unfold minMaxLoc. cbn [snd data minMaxIdx_].
  destruct (SFltb d (minVal (mkMinMax (S754_infinity false)
              (S754_infinity true) 0 0)));
    cbn [maxVal]; rewrite Hd; cbn [minVal minIdx];
    rewrite minMaxIdx_zeros by exact Hd0; cbn [maxIdx];
    unfold empty; cbn [rows cols];
    replace (R * C =? 0) with false by (symmetry; apply Z.eqb_neq; nia);
    cbn [negb andb Z.eqb]; unfold ofs2loc;
    cbn [Z.ltb Z.compare Z.sub Z.add Z.opp Z.pos_sub cols];
    now rewrite Z.mod_0_l, Z.div_0_l by lia.
Qed.

(** The transform of a flat block: whenever the DC term is not below zero
    and every other coefficient is zero, the selection gives (0,0). *)
Lemma significant_loc_dc_only {X : Type} (R C : Z) (d : float) (l : list X) :
  0 < R -> 0 < C ->
  SFltb (S754_infinity true) d = true -> SFltb d (@zero float _) = false ->
  significant_loc (mkMat R C (d :: map (fun _ => zero) l)) = Ok (mkPoint 0 0).
Proof.
  intros HR HC Hd Hd0. unfold significant_loc.
  rewrite (minMaxLoc_dc_only R C d l HR HC Hd Hd0).
  unfold set_at, in_mat. cbn [px py rows cols data].
  replace ((0 <=? 0) && (0 <? R) && (0 <=? 0) && (0 <? C)) with true
    by (symmetry; rewrite !andb_true_iff, !Z.leb_le, !Z.ltb_lt; lia).
  cbn [bind Z.mul Z.add Z.to_nat list_set].
  assert (H1 : SFltb (S754_infinity true) (@zero float _) = true)
    by reflexivity.
  assert (H2 : SFltb (@zero float _) (@zero float _) = false) by reflexivity.
  now rewrite (minMaxLoc_dc_only R C zero l HR HC H1 H2).
Qed.

(** On an all-zero block of any size the selection gives (0,0). *)
Lemma significant_loc_zeros (R C : Z) :
  0 < R -> 0 < C -> significant_loc (zeros R C) = Ok (mkPoint 0 0).
Proof.
  intros HR HC. unfold zeros, build, zrange.
  destruct (Z.to_nat (R * C)) as [|k] eqn:Ek; [nia|].
  cbn [zseq map].
  now apply (significant_loc_dc_only R C (@zero float _) (zseq 1 k)).
Qed.

(** **** C5 *)

(** C5 on the code: on the all-zero block the selection ends normally
    and gives (0,0), the DC cell, not the cell at row 0 and column 1. *)
Theorem significant_loc_zero_block :
  significant_loc (zeros 8 8) = Ok (mkPoint 0 0) /\
  significant_loc (zeros 8 8) <> Ok (mkPoint 1 0).
Proof. split; [vm_compute; reflexivity | vm_compute; discriminate]. Qed.

(** **** C2 *)

(** C2 on the code: the two scans compare signed values, not
    magnitudes.  In the block [[5, -4], [1, 0]] the code selects the
    cell at row 1 and column 0 (value 1), while the coefficient of
    greatest magnitude after the first is at row 0 and column 1
    (value -4). *)
Theorem significant_loc_signed_not_magnitude :
  let Vi := block_of 2 2 [5; -4; 1; 0] in
  significant_loc Vi = Ok (mkPoint 0 1) /\
  spec_selectTarget Vi = Some (mkPoint 1 0).
Proof. split; vm_compute; reflexivity. Qed.

End Selection.

(** ** Witnesses and counterexamples for the tiler *)

Lemma createBlocks_count_witness :
  exists V, createBlocks [] (mkMat 5 5 (zrange 25)) 2 = Ok V /\
            Z.of_nat (length V) = 5 / 2 * (5 / 2) /\
            Forall (fun b => rows b = 2 /\ cols b = 2) V.
Proof.
  apply (createBlocks_count (mkMat 5 5 (zrange 25)) 5 2).
  - reflexivity.
  - reflexivity.
  - lia.
Defined.

Lemma tile_reassemble_identity_witness :
  let I := mkMat 4 4 (zrange 16) in
  exists V, createBlocks [] I 2 = Ok V /\
            assembleBlocks V (zeros (rows I) (cols I)) (cols I / 2) = Ok I.
Proof.
  apply (tile_reassemble_identity (mkMat 4 4 (zrange 16)) 2).
  - repeat split; simpl; lia.
  - reflexivity.
  - lia.
  - reflexivity.
Defined.

Lemma tiling_order_and_placement_witness :
  let I := mkMat 2 2 [10; 20; 30; 40] in
  exists V, createBlocks [] I 1 = Ok V /\
    (forall i, 0 <= i < rows I / 1 * (rows I / 1) ->
       nth (Z.to_nat i) V (zeros 0 0) =
       build 1 1 (fun r c => at_ I (i mod (rows I / 1) * 1 + r)
                                   (i / (rows I / 1) * 1 + c))) /\
    (forall (Vb : list (Mat Z)) (dst D : Mat Z) (n i : Z),
       0 < n -> Forall (fun b => rows b = 1 /\ cols b = 1) Vb ->
       assembleBlocks Vb dst n = Ok D ->
       0 <= i < Z.of_nat (length Vb) ->
       block_frame (nth (Z.to_nat i) Vb (zeros 0 0)) i n =
         mkRect (i / n * 1) (i mod n * 1) 1 1 /\
       forall r c, 0 <= r < 1 -> 0 <= c < 1 ->
         at_ D (i mod n * 1 + r) (i / n * 1 + c) =
         at_ (nth (Z.to_nat i) Vb (zeros 0 0)) r c).
Proof.
  apply (tiling_order_and_placement (mkMat 2 2 [10; 20; 30; 40]) 1).
  - reflexivity.
  - simpl; lia.
  - lia.
Defined.

(** On the image [[10, 20], [30, 40]] with blocks of one pixel the blocks
    come out as 10, 30, 20, 40, not in row-major order, and block 1 is
    written at row 1 and column 0, not at row 0 and column 1. *)
Lemma tiling_not_row_major :
  let I := mkMat 2 2 [10; 20; 30; 40] in
  createBlocks [] I 1 =
    Ok [mkMat 1 1 [10]; mkMat 1 1 [30]; mkMat 1 1 [20]; mkMat 1 1 [40]] /\
  createBlocks [] I 1 <> Ok (spec_tile_row_major I 1) /\
  block_frame (mkMat 1 1 [30]) 1 2 = mkRect 0 1 1 1 /\
  block_frame (mkMat 1 1 [30]) 1 2 <> spec_block_frame (mkMat 1 1 [30]) 1 2.
Proof.
  split; [vm_compute; reflexivity|].
  split; [vm_compute; discriminate|].
  split; [vm_compute; reflexivity | vm_compute; discriminate].
Qed.

(** ** The program *)

Section ProgramFacts.
Variable imread : string -> Mat Z.
Variable randu : Z -> list float.
Variable to_32F : Z -> float.
Variable to_8U : float -> Z.
Variable dct_data : Z -> Z -> list float -> list float.
Variable idct_data : Z -> Z -> list float -> list float.
Variable CalcWatermark : list float -> float -> list float.





Lemma map_result_Forall2 {X Y : Type} (f : X -> result Y) (l : list X) :
  forall l', map_result f l = Ok l' -> Forall2 (fun a b => f a = Ok b) l l'.
Proof.
  induction l as [|a l IH]; intros l'; cbn [map_result].
  - intros [= <-]. constructor.
  - destruct (f a) as [b| | | |] eqn:E; try discriminate. cbn [bind].
    destruct (map_result f l) as [bs| | | |]; try discriminate. cbn [bind].
    intros [= <-]. constructor; [assumption | now apply IH].
Qed.

Lemma map_result_ok {X Y : Type} (f : X -> result Y) (l : list X) :
  Forall (fun a => exists b, f a = Ok b) l ->
  exists l', map_result f l = Ok l'.
Proof.
  induction 1 as [|a l (b & Hb) _ (bs & IH)]; cbn [map_result].
  - now exists [].
  - rewrite Hb, IH. cbn [bind]. now eexists.
Qed.

Lemma dct_ok (m m' : Mat float) :
  dct dct_data m = Ok m' ->
  odd_side (cols m) = false /\ odd_side (rows m) = false /\
  m' = mkMat (rows m) (cols m) (dct_data (rows m) (cols m) (data m)).
Proof.
  unfold dct. destruct (odd_side (cols m)); [discriminate|].
  destruct (odd_side (rows m)); [discriminate|]. cbn [orb].
  intros [= <-]. repeat split.
Qed.

Lemma idct_ok (m m' : Mat float) :
  idct idct_data m = Ok m' ->
  odd_side (cols m) = false /\ odd_side (rows m) = false /\
  m' = mkMat (rows m) (cols m) (idct_data (rows m) (cols m) (data m)).
Proof.
  unfold idct. destruct (odd_side (cols m)); [discriminate|].
  destruct (odd_side (rows m)); [discriminate|]. cbn [orb].
  intros [= <-]. repeat split.
Qed.

Lemma transform_blocks_headers (V : list (Mat Z)) (Vdct : list (Mat float)) :
  transform_blocks to_32F dct_data V = Ok Vdct -> same_headers V Vdct.
Proof.
  intros HV. apply map_result_Forall2 in HV.
  induction HV as [|a b V Vdct Hab _ IH]; constructor; [|exact IH].
  apply dct_ok in Hab. destruct Hab as (_ & _ & ->). now split.
Qed.

Lemma idct_headers (V D : list (Mat float)) :
  inverse_blocks idct_data V = Ok D -> same_headers V D.
Proof.
  intros HV. apply map_result_Forall2 in HV.
  induction HV as [|a b V D Hab _ IH]; constructor; [|exact IH].
  apply idct_ok in Hab. destruct Hab as (_ & _ & ->). now split.
Qed.

(** The transforms go through on blocks whose side they take. *)
Lemma transform_blocks_even (V : list (Mat Z)) (N : Z) :
  odd_side N = false ->
  Forall (fun b => rows b = N /\ cols b = N) V ->
  exists Vdct, transform_blocks to_32F dct_data V = Ok Vdct.
Proof.
  intros HN Hall. apply map_result_ok.
  apply Forall_impl with (2 := Hall). intros b (HR & HC).
  unfold dct, convertTo. cbn [rows cols]. rewrite HR, HC, HN. cbn [orb].
  now eexists.
Qed.

Lemma inverse_blocks_even (V : list (Mat float)) (N : Z) :
  odd_side N = false ->
  Forall (fun b => rows b = N /\ cols b = N) V ->
  exists D, inverse_blocks idct_data V = Ok D.
Proof.
  intros HN Hall. apply map_result_ok.
  apply Forall_impl with (2 := Hall). intros b (HR & HC).
  unfold idct. rewrite HR, HC, HN. cbn [orb]. now eexists.
Qed.

Lemma map_result_cases {X Y : Type} (f : X -> result Y) (l : list X) :
  (forall a, (exists b, f a = Ok b) \/ f a = CvError) ->
  (exists l', map_result f l = Ok l') \/ map_result f l = CvError.
Proof.
  intros Hf. induction l as [|a l IH]; cbn [map_result].
  - left. now exists [].
  - destruct (Hf a) as [(b & ->) | ->]; cbn [bind]; [|now right].
    destruct IH as [(bs & ->) | ->]; cbn [bind]; [left; now eexists|].
    now right.
Qed.

(** The transforms end normally or raise. *)
Lemma transform_blocks_cases (V : list (Mat Z)) :
  (exists Vdct, transform_blocks to_32F dct_data V = Ok Vdct) \/
  transform_blocks to_32F dct_data V = CvError.
Proof.
  apply map_result_cases. intros a. unfold dct.
  destruct (odd_side _ || odd_side _); [now right | left; now eexists].
Qed.

Lemma inverse_blocks_cases (V : list (Mat float)) :
  (exists D, inverse_blocks idct_data V = Ok D) \/
  inverse_blocks idct_data V = CvError.
Proof.
  apply map_result_cases. intros a. unfold idct.
  destruct (odd_side _ || odd_side _); [now right | left; now eexists].
Qed.

Lemma transform_blocks_odd (Vi : Mat Z) (V : list (Mat Z)) :
  odd_side (rows Vi) = true ->
  transform_blocks to_32F dct_data (Vi :: V) = CvError.
Proof.
  intros Hodd. unfold transform_blocks. cbn [map_result].
  unfold dct, convertTo. cbn [rows cols]. rewrite Hodd.
  now rewrite orb_true_r.
Qed.

Lemma placeWatermark_header (Vi Vi' : Mat float) (w : float) :
  placeWatermark Vi w = Ok Vi' -> rows Vi = rows Vi' /\ cols Vi = cols Vi'.
Proof.
  unfold placeWatermark.
  destruct (significant_loc Vi) as [p| | | |]; try discriminate.
  cbn [bind]. destruct (get_at Vi p); try discriminate. cbn [bind].
  unfold set_at. destruct (in_mat Vi (py p) (px p)); [|discriminate].
  intros [= <-]. now split.
Qed.

Lemma embed_from_headers (W : Mat float) (Vdct : list (Mat float)) :
  forall i Vw, embed_from W Vdct i = Ok Vw -> same_headers Vdct Vw.
Proof.
  induction Vdct as [|Vi V IH]; intros i Vw; cbn [embed_from].
  - intros [= <-]. constructor.
  - destruct (at_rc W (Z.quot i n) (Z.rem i n)) as [w| | | |];
      try discriminate. cbn [bind].
    destruct (placeWatermark Vi w) as [Vi'| | | |] eqn:E; try discriminate.
    cbn [bind].
    destruct (embed_from W V (i + 1)) as [rest| | | |] eqn:E';
      try discriminate. cbn [bind].
    intros [= <-]. constructor.
    + eapply placeWatermark_header; eassumption.
    + eapply IH; eassumption.
Qed.

Lemma cuda_embed_from_headers (W : Mat float) (Vcdct : list (Mat float)) :
  forall i Vw, cuda_embed_from CalcWatermark W Vcdct i = Ok Vw ->
               same_headers Vcdct Vw.
Proof.
  induction Vcdct as [|Vi V IH]; intros i Vw; cbn [cuda_embed_from].
  - intros [= <-]. constructor.
  - destruct (at_rc W (Z.quot i n) (Z.rem i n)) as [w| | | |];
      try discriminate. cbn [bind].
    destruct (cuda_embed_from CalcWatermark W V (i + 1)) as [rest| | | |] eqn:E';
      try discriminate. cbn [bind].
    intros [= <-]. constructor.
    + now split.
    + eapply IH; eassumption.
Qed.

End ProgramFacts.

(** ** Images too small for the grid *)

(** A loop with step 0 whose body falls through goes on until the fuel is
    used up. *)
Lemma for_step_zero_no_end {St : Type} (bound : Z)
    (body : Z -> St -> result St) (fuel : nat) :
  0 < bound ->
  (forall s, exists s', body 0 s = Ok s') ->
  forall s, for_step fuel 0 bound 0 body s = BadAlloc.
Proof.
  intros Hb Hbody. induction fuel as [|fuel IH]; intros s; [reflexivity|].
  cbn [for_step].
  replace (0 <? bound) with true by (symmetry; apply Z.ltb_lt; lia).
  destruct (Hbody s) as (s' & ->). cbn [bind]. apply IH.
Qed.

Lemma for_step_body_no_end {St : Type} (bound step : Z)
    (body : Z -> St -> result St) (fuel : nat) (s : St) :
  0 < bound -> body 0 s = BadAlloc ->
  for_step (S fuel) 0 bound step body s = BadAlloc.
Proof.
  intros Hb Hbody. cbn [for_step].
  replace (0 <? bound) with true by (symmetry; apply Z.ltb_lt; lia).
  now rewrite Hbody.
Qed.

(** With a side below 8 the block size is 0: the counters of the tiling
    stay at 0 and every pass appends a block, until the allocation fails. *)
Lemma tile_image_small_no_end (I : Mat Z) :
  rows I = cols I -> 0 <= rows I < 8 -> tile_image I = BadAlloc.
Proof.
  intros Hsq HM. unfold tile_image, n, createBlocks.
  rewrite <- Hsq, Z.eqb_refl. cbn [negb].
  rewrite Z.quot_small by lia.
  replace (INT_MAX <? rows I - 0 + 1) with false
    by (symmetry; apply Z.ltb_ge; unfold INT_MAX; lia).
  rewrite andb_false_r.
  unfold loop_fuel at 1. apply for_step_body_no_end; [lia|].
  apply for_step_zero_no_end; [lia|].
  intros s. rewrite roi_ok; [eexists; reflexivity|].
  apply rect_inside_spec; cbn [x y width height]. lia.
Qed.

Section PipelineClaims.
Variable imread : string -> Mat Z.
Variable randu : Z -> list float.
Variable to_32F : Z -> float.
Variable to_8U : float -> Z.
Variable dct_data : Z -> Z -> list float -> list float.
Variable idct_data : Z -> Z -> list float -> list float.
Variable CalcWatermark : list float -> float -> list float.

Lemma same_headers_uniform {A B : Type} (V : list (Mat A)) (Vb : list (Mat B))
    (N : Z) :
  same_headers V Vb ->
  Forall (fun b => rows b = N /\ cols b = N) V ->
  Forall (fun b => rows b = N /\ cols b = N) Vb /\ length Vb = length V.
Proof.
  induction 1 as [|a b V Vb (HR & HC) _ IH]; intros Hall.
  - split; [constructor | reflexivity].
  - apply Forall_cons_iff in Hall. destruct Hall as ((HRa & HCa) & Hall).
    destruct (IH Hall) as (IH1 & IH2). split.
    + constructor; [split; congruence | assumption].
    + simpl. now rewrite IH2.
Qed.


Lemma tile_image_tiles (I : Mat Z) :
  rows I = cols I -> 8 <= rows I ->
  tile_image I = Ok (tiles I (rows I / 8)).
Proof.
  intros Hsq HM. unfold tile_image, n.
  rewrite Z.quot_div_nonneg by lia.
  assert (0 < rows I / 8) by (apply Z.div_str_pos; lia).
  now rewrite createBlocks_tiles.
Qed.



(** Eight blocks or more of side 65 or more do not fit in [destination]:
    the reassembly raises at a block whose frame leaves it. *)
Lemma large_blocks_do_not_fit (Vb : list (Mat float)) (N : Z) :
  65 <= N -> (8 <= length Vb)%nat ->
  Forall (fun b => rows b = N /\ cols b = N) Vb ->
  assembleBlocks Vb destination n = CvError /\
  exists k Vk, nth_error Vb k = Some Vk /\
    rect_inside destination (block_frame Vk (Z.of_nat k) n) = false.
Proof.
  intros HN Hlen Hall. unfold assembleBlocks.
  destruct (assemble_from_cases Vb 0 destination n ltac:(discriminate))
    as [(D & _ & _ & _ & Hins) | (HD & k & Vk & Hk & Hout)].
  - exfalso.
    destruct (nth_error Vb 7) as [Vk|] eqn:Hk;
      [|apply nth_error_None in Hk; lia].
    specialize (Hins _ _ Hk).
    rewrite Forall_forall in Hall.
    destruct (Hall Vk (nth_error_In _ _ Hk)) as (HRk & HCk).
    apply rect_inside_spec in Hins. unfold block_frame, n in Hins.
    cbn [x y width height] in Hins. rewrite HRk in Hins.
    change (rows destination) with 512 in Hins.
    change (Z.rem (0 + Z.of_nat 7) 8) with 7 in Hins. lia.
  - split; [assumption|]. exists k, Vk. split; [assumption|].
    now rewrite Z.add_0_l in Hout.
Qed.




(** A run on a square image of side 520 or more raises before it writes a
    second file: in a transform, or else in the first reassembly. *)
Lemma pipeline_large_raises (I : Mat Z) :
  rows I = cols I -> 520 <= rows I ->
  status (pipeline randu to_32F to_8U dct_data idct_data
             CalcWatermark I) = CvError /\
  map fst (written (pipeline randu to_32F to_8U dct_data idct_data
             CalcWatermark I)) =
    ["watermark.png"%string].
Proof.
  intros Hsq HM. unfold pipeline. cbv zeta.
  rewrite tile_image_tiles by lia. cbn [andThen].
  set (N := rows I / 8).
  destruct (transform_blocks_cases to_32F dct_data (tiles I N))
    as [(Vdct & E) | E]; rewrite E; cbn [andThen status written map fst];
    [|now split].
  assert (HN : 65 <= N) by (apply Z.div_le_lower_bound; lia).
  destruct (same_headers_uniform _ _ N (transform_blocks_headers to_32F
              dct_data (tiles I N) Vdct E) (tiles_headers I N))
    as (Hall & Hlen).
  pose proof (length_tiles I N ltac:(lia) ltac:(lia)) as L.
  assert (Hcnt : 8 <= rows I / N).
  { apply Z.div_le_lower_bound; [lia|].
    pose proof (Z.div_mod (rows I) 8 ltac:(lia)) as Hdm.
    pose proof (Z.mod_pos_bound (rows I) 8 ltac:(lia)). fold N in Hdm. lia. }
  destruct (large_blocks_do_not_fit Vdct N HN ltac:(nia) Hall) as (-> & _).
  cbn [andThen status written map fst]. now split.
Qed.

(** **** C9 *)


(** The loop reads the watermark field at row [i / 8] and column
    [i mod 8] for block [i], as long as there are at most 64 blocks. *)
Lemma embed_from_indexing (W : Mat float) (Vdct : list (Mat float)) :
  rows W = 8 -> cols W = 8 ->
  forall i0,
    0 <= i0 -> i0 + Z.of_nat (length Vdct) <= 64 ->
    Forall (fun b => continuous b /\ empty b = false) Vdct ->
    exists Vw, embed_from W Vdct i0 = Ok Vw /\
      length Vw = length Vdct /\
      forall k, (k < length Vdct)%nat ->
        placeWatermark (nth k Vdct (zeros 0 0))
          (at_ W ((i0 + Z.of_nat k) / 8) ((i0 + Z.of_nat k) mod 8))
        = Ok (nth k Vw (zeros 0 0)).
Proof.
  intros HRW HCW.
  induction Vdct as [|Vi V IH]; intros i0 Hi0 Hlen Hall.
  - exists []. split; [reflexivity|]. split; [reflexivity|].
    intros k Hk. simpl in Hk. lia.
  - cbn [length] in Hlen. rewrite Nat2Z.inj_succ in Hlen.
    apply Forall_cons_iff in Hall. destruct Hall as ((Hc & He) & Hall).
    cbn [embed_from]. unfold n.
    rewrite Z.quot_div_nonneg, Z.rem_mod_nonneg by lia.
    pose proof (Z.mod_pos_bound i0 8 ltac:(lia)) as Hmod.
    assert (Hdiv : 0 <= i0 / 8 < 8).
    { split; [apply Z.div_pos; lia | apply Z.div_lt_upper_bound; lia]. }
    unfold at_rc.
    replace (in_mat W (i0 / 8) (i0 mod 8)) with true
      by (symmetry; apply in_mat_spec; lia).
    cbn [bind].
    destruct (placeWatermark_ok Vi (at_ W (i0 / 8) (i0 mod 8)) Hc He)
      as (Vi' & HVi').
    rewrite HVi'. cbn [bind].
    destruct (IH (i0 + 1) ltac:(lia) ltac:(lia) Hall)
      as (rest & Hrest & Hlrest & Hnth).
    fold n. rewrite Hrest. cbn [bind].
    exists (Vi' :: rest). split; [reflexivity|].
    split; [simpl; now rewrite Hlrest|].
    intros [|k] Hk; cbn [nth].
    + now rewrite Z.add_0_r.
    + cbn [length] in Hk.
      replace (i0 + Z.of_nat (S k)) with (i0 + 1 + Z.of_nat k) by lia.
      apply Hnth. lia.
Qed.

Lemma transform_blocks_nonempty (V : list (Mat Z)) (Vdct : list (Mat float))
    (N : Z) :
  (forall R C l, length (dct_data R C l) = length l) ->
  0 < N ->
  Forall (fun b => rows b = N /\ cols b = N /\ continuous b) V ->
  transform_blocks to_32F dct_data V = Ok Vdct ->
  Forall (fun b => continuous b /\ empty b = false) Vdct.
Proof.
  intros Hdct HN Hall HV. apply map_result_Forall2 in HV.
  induction HV as [|a b V Vdct Hab _ IH]; [constructor|].
  apply Forall_cons_iff in Hall. destruct Hall as ((HR & HC & Hc) & Hall).
  constructor; [|now apply IH].
  apply dct_ok in Hab. destruct Hab as (_ & _ & ->). split.
  - unfold continuous, convertTo in *. cbn [rows cols data].
    now rewrite Hdct, length_map.
  - unfold empty, convertTo. cbn [rows cols]. rewrite HR, HC.
    apply Z.eqb_neq. nia.
Qed.

Lemma tiles_continuous {A : Type} `{Scalar A} (I : Mat A) (N : Z) :
  0 <= N ->
  Forall (fun b => rows b = N /\ cols b = N /\ continuous b) (tiles I N).
Proof.
  intros HN. unfold tiles. apply Forall_forall. intros b Hb.
  apply in_flat_map in Hb. destruct Hb as (gx & _ & Hb).
  apply in_map_iff in Hb. destruct Hb as (gy & <- & _).
  split; [reflexivity|]. split; [reflexivity|].
  now apply continuous_build.
Qed.

(** At most 64 blocks of one size, at most 64 pixels wide, fit in the
    destination. *)
Lemma assemble_uniform_fits (V : list (Mat float)) (N : Z) :
  0 < N -> 8 * N <= 512 -> (length V <= 64)%nat ->
  Forall (fun b => rows b = N /\ cols b = N) V ->
  exists D, assembleBlocks V destination n = Ok D.
Proof.
  intros HN HN8 Hlen Hall. unfold assembleBlocks.
  destruct (assemble_from_cases V 0 destination n ltac:(discriminate))
    as [(D & HD & _) | (_ & k & Vk & Hk & Hout)]; [now exists D|].
  exfalso.
  assert (Hklen : (k < length V)%nat) by (apply nth_error_Some; congruence).
  rewrite Forall_forall in Hall.
  destruct (Hall Vk (nth_error_In _ _ Hk)) as (HRk & HCk).
  assert (Hin : rect_inside destination
                  (block_frame Vk (0 + Z.of_nat k) n) = true).
  { rewrite Z.add_0_l, block_frame_nonneg by (unfold n; lia).
    apply rect_inside_spec. cbn [x y width height]. rewrite HRk, HCk.
    change (rows destination) with 512. change (cols destination) with 512.
    unfold n.
    pose proof (Z.mod_pos_bound (Z.of_nat k) 8 ltac:(lia)).
    assert (0 <= Z.of_nat k / 8 < 8).
    { split; [apply Z.div_pos; lia | apply Z.div_lt_upper_bound; lia]. }
    repeat split; nia. }
  congruence.
Qed.

Lemma cuda_embed_from_ok (W : Mat float) (Vcdct : list (Mat float)) :
  rows W = 8 -> cols W = 8 ->
  forall i0, 0 <= i0 -> i0 + Z.of_nat (length Vcdct) <= 64 ->
    exists Vw, cuda_embed_from CalcWatermark W Vcdct i0 = Ok Vw.
Proof.
  intros HRW HCW. induction Vcdct as [|Vi V IH]; intros i0 Hi0 Hlen.
  - now exists [].
  - cbn [length] in Hlen. rewrite Nat2Z.inj_succ in Hlen.
    cbn [cuda_embed_from]. unfold n.
    rewrite Z.quot_div_nonneg, Z.rem_mod_nonneg by lia.
    pose proof (Z.mod_pos_bound i0 8 ltac:(lia)) as Hmod.
    assert (Hdiv : 0 <= i0 / 8 < 8).
    { split; [apply Z.div_pos; lia | apply Z.div_lt_upper_bound; lia]. }
    unfold at_rc.
    replace (in_mat W (i0 / 8) (i0 mod 8)) with true
      by (symmetry; apply in_mat_spec; lia).
    cbn [bind]. fold n.
    destruct (IH (i0 + 1) ltac:(lia) ltac:(lia)) as (rest & ->).
    cbn [bind]. eexists. reflexivity.
Qed.

(** With [M mod 8 < M / 8] the grid of the tiling has 8 cells a side. *)
Lemma grid_is_8 (M : Z) : M mod 8 < M / 8 -> M / (M / 8) = 8.
Proof.
  intros Hgrid.
  pose proof (Z.mod_pos_bound M 8 ltac:(lia)) as Hmod.
  pose proof (Z.div_mod M 8 ltac:(lia)) as Hdm.
  symmetry. apply (Z.div_unique M (M / 8) 8 (M mod 8)); lia.
Qed.

(** The run on an image whose grid has 8 cells a side, which fits in the
    destination and whose blocks the transforms take. *)
Lemma pipeline_run (I : Mat Z) :
  (forall R C l, length (dct_data R C l) = length l) ->
  rows I = cols I -> rows I mod 8 < rows I / 8 -> rows I <= 512 ->
  odd_side (rows I / 8) = false ->
  exists Vdct Idct Vw D Id,
    transform_blocks to_32F dct_data (tiles I (rows I / 8)) = Ok Vdct /\
    assembleBlocks Vdct destination n = Ok Idct /\
    embed_from (createWatermark randu n) Vdct 0 = Ok Vw /\
    length Vw = 64%nat /\
    (forall i, 0 <= i < 64 ->
       placeWatermark (nth (Z.to_nat i) Vdct (zeros 0 0))
                      (at_ (createWatermark randu n) (i / 8) (i mod 8))
       = Ok (nth (Z.to_nat i) Vw (zeros 0 0))) /\
    inverse_blocks idct_data Vw = Ok D /\
    assembleBlocks D destination n = Ok Id /\
    pipeline randu to_32F to_8U dct_data idct_data CalcWatermark I =
    mkRun [("watermark.png"%string,
            convertTo to_8U (createWatermark randu n));
           ("dcts.png"%string, convertTo to_8U Idct);
           ("lena_reassembled.png"%string, convertTo to_8U Id)] (Ok 0).
Proof.
  intros Hdct Hsq Hgrid H512 Hodd.
  pose proof (grid_is_8 (rows I) Hgrid) as Hcnt.
  set (M := rows I) in *. set (N := M / 8) in *.
  pose proof (Z.mod_pos_bound M 8 ltac:(lia)) as Hmod.
  pose proof (Z.div_mod M 8 ltac:(lia)) as Hdm. fold N in Hdm.
  assert (HN : 1 <= N) by lia.
  pose proof (length_tiles I N ltac:(fold M; lia) ltac:(lia)) as L.
  fold M in L. rewrite Hcnt in L.
  unfold pipeline. cbv zeta.
  rewrite tile_image_tiles by (fold M; lia). cbn [andThen]. fold M. fold N.
  set (W := createWatermark randu n).
  destruct (transform_blocks_even to_32F dct_data (tiles I N) N Hodd
              (tiles_headers I N)) as (Vdct & HVdct).
  rewrite HVdct. cbn [andThen].
  destruct (same_headers_uniform _ _ N (transform_blocks_headers to_32F
              dct_data (tiles I N) Vdct HVdct) (tiles_headers I N))
    as (Hall & Hlen).
  destruct (assemble_uniform_fits Vdct N ltac:(lia) ltac:(lia) ltac:(lia) Hall)
    as (Idct & HIdct).
  rewrite HIdct. cbn [andThen].
  destruct (embed_from_indexing W Vdct eq_refl eq_refl 0 ltac:(lia)
              ltac:(lia)
              (transform_blocks_nonempty (tiles I N) Vdct N Hdct
                 ltac:(lia) (tiles_continuous I N ltac:(lia)) HVdct))
    as (Vw & HVw & HlenW & Hnth).
  rewrite HVw. cbn [andThen].
  destruct (same_headers_uniform _ _ N (embed_from_headers W Vdct 0 Vw HVw)
              Hall) as (HallW & _).
  destruct (inverse_blocks_even idct_data Vw N Hodd HallW) as (D & HD).
  rewrite HD. cbn [andThen].
  destruct (same_headers_uniform _ _ N (idct_headers idct_data Vw D HD) HallW)
    as (HallD & HlenD).
  destruct (assemble_uniform_fits D N ltac:(lia) ltac:(lia) ltac:(lia) HallD)
    as (Id & HId).
  rewrite HId. cbn [andThen].
  destruct (cuda_embed_from_ok W Vw eq_refl eq_refl 0
              ltac:(lia) ltac:(lia)) as (Vc & HVc).
  rewrite HVc. cbn [andThen].
  destruct (same_headers_uniform _ _ N
              (cuda_embed_from_headers CalcWatermark W Vw 0 Vc HVc) HallW)
    as (HallC & HlenC).
  destruct (inverse_blocks_even idct_data Vc N Hodd HallC) as (Dc & HDc).
  rewrite HDc. cbn [andThen].
  destruct (same_headers_uniform _ _ N (idct_headers idct_data Vc Dc HDc)
              HallC) as (HallDc & HlenDc).
  destruct (assemble_uniform_fits Dc N ltac:(lia) ltac:(lia) ltac:(lia) HallDc)
    as (Icd & ->).
  cbn [andThen app].
  exists Vdct, Idct, Vw, D, Id.
  split; [reflexivity|]. split; [assumption|]. split; [assumption|].
  split; [lia|]. split; [|now repeat split].
  intros i Hi. specialize (Hnth (Z.to_nat i) ltac:(lia)).
  now rewrite Z.add_0_l, Z2Nat.id in Hnth by lia.
Qed.

(** **** C10 *)

(** C10, as the code has it: a square image of side [M] with
    [M mod 8 < M / 8] (every [M] from 64 on, and every multiple of 8) is
    tiled into 64 blocks of side [M / 8], block [i] being the cell at grid
    column [i / 8] and grid row [i mod 8].  If moreover [M <= 512] (the
    blocks fit in the destination of the reassembly before the embedding)
    and the block side is one the cosine transform takes (even, or 1), the
    run reaches the embedding loop, which gives block [i] the value of the
    watermark field at row [i / 8] and column [i mod 8]; the blocks so
    marked are the ones transformed back and written as
    [lena_reassembled.png], and the run returns 0. *)
Theorem grid_and_watermark_indexing (I : Mat Z) :
  rows I = cols I -> rows I mod 8 < rows I / 8 ->
  exists V, tile_image I = Ok V /\
    length V = 64%nat /\
    Forall (fun b => rows b = rows I / 8 /\ cols b = rows I / 8) V /\
    (forall i, 0 <= i < 64 ->
       nth (Z.to_nat i) V (zeros 0 0) =
       cell I (rows I / 8) (i / 8) (i mod 8)) /\
    ((forall R C l, length (dct_data R C l) = length l) ->
     rows I <= 512 -> odd_side (rows I / 8) = false ->
     let W := createWatermark randu n in
     let r :=
       pipeline randu to_32F to_8U dct_data idct_data CalcWatermark I in
     exists Vdct Vw D Id,
       transform_blocks to_32F dct_data V = Ok Vdct /\
       embed_from W Vdct 0 = Ok Vw /\
       length Vw = 64%nat /\
       (forall i, 0 <= i < 64 ->
          placeWatermark (nth (Z.to_nat i) Vdct (zeros 0 0))
                         (at_ W (i / 8) (i mod 8))
          = Ok (nth (Z.to_nat i) Vw (zeros 0 0))) /\
       inverse_blocks idct_data Vw = Ok D /\
       assembleBlocks D destination n = Ok Id /\
       status r = Ok 0 /\
       In ("lena_reassembled.png"%string, convertTo to_8U Id) (written r)).
Proof.
  intros Hsq Hgrid.
  pose proof (grid_is_8 (rows I) Hgrid) as Hcnt.
  pose proof (Z.mod_pos_bound (rows I) 8 ltac:(lia)) as Hmod.
  pose proof (Z.div_mod (rows I) 8 ltac:(lia)) as Hdm.
  assert (HN : 1 <= rows I / 8) by lia.
  assert (HM : 8 <= rows I) by lia.
  exists (tiles I (rows I / 8)). split; [now apply tile_image_tiles|].
  pose proof (length_tiles I (rows I / 8) ltac:(lia) ltac:(lia)) as L.
  rewrite Hcnt in L.
  split; [lia|]. split; [apply tiles_headers|]. split.
  - intros i Hi. rewrite nth_tiles by (rewrite ?Hcnt; lia).
    now rewrite Hcnt.
  - intros Hdct H512 Hodd. cbv zeta.
    destruct (pipeline_run I Hdct Hsq Hgrid H512 Hodd)
      as (Vdct & Idct & Vw & D & Id & H1 & H2 & H3 & H4 & H5 & H6 & H7 & ->).
    exists Vdct, Vw, D, Id. cbn [status written].
    repeat (split; [assumption|]). split; [reflexivity|].
    cbn [In]. right. right. left. reflexivity.
Qed.

End PipelineClaims.

(** A 9 by 9 image is its own padding, and the pipeline tiles it into 81
    blocks of one pixel, not into an 8 by 8 grid. *)
Lemma tile_image_9_not_8x8 :
  getOptimalDFTSize 9 = 9 /\
  exists V, tile_image (zeros 9 9) = Ok V /\
            length V = 81%nat /\
            Forall (fun b => rows b = 1 /\ cols b = 1) V.
Proof.
  split; [vm_compute; reflexivity|].
  exists (tiles (zeros 9 9) 1). split; [vm_compute; reflexivity|].
  split; [vm_compute; reflexivity | apply tiles_headers].
Qed.

Lemma grid_and_watermark_indexing_witness :
  let randu := fun _ : Z => map of_Z (zseq 1 64) in
  let to_32F := of_Z in
  let to_8U := fun _ : float => 0 in
  let dct_data := fun (_ _ : Z) (l : list float) => l in
  let idct_data := fun (_ _ : Z) (l : list float) => l in
  let CalcWatermark := fun (l : list float) (_ : float) => l in
  let I : Mat Z := build 16 16 (fun r c => 16 * r + c + 1) in
  exists V, tile_image I = Ok V /\
    length V = 64%nat /\
    Forall (fun b => rows b = rows I / 8 /\ cols b = rows I / 8) V /\
    (forall i, 0 <= i < 64 ->
       nth (Z.to_nat i) V (zeros 0 0) =
       cell I (rows I / 8) (i / 8) (i mod 8)) /\
    let W := createWatermark randu n in
    let r :=
      pipeline randu to_32F to_8U dct_data idct_data CalcWatermark I in
    exists Vdct Vw D Id,
      transform_blocks to_32F dct_data V = Ok Vdct /\
      embed_from W Vdct 0 = Ok Vw /\
      length Vw = 64%nat /\
      (forall i, 0 <= i < 64 ->
         placeWatermark (nth (Z.to_nat i) Vdct (zeros 0 0))
                        (at_ W (i / 8) (i mod 8))
         = Ok (nth (Z.to_nat i) Vw (zeros 0 0))) /\
      inverse_blocks idct_data Vw = Ok D /\
      assembleBlocks D destination n = Ok Id /\
      status r = Ok 0 /\
      In ("lena_reassembled.png"%string, convertTo to_8U Id) (written r).
Proof.
  cbv zeta.
  destruct (grid_and_watermark_indexing
              (fun _ : Z => map of_Z (zseq 1 64)) of_Z (fun _ : float => 0)
              (fun (_ _ : Z) (l : list float) => l)
              (fun (_ _ : Z) (l : list float) => l)
              (fun (l : list float) (_ : float) => l)
              (build 16 16 (fun r c => 16 * r + c + 1)) eq_refl eq_refl)
    as (V & H1 & H2 & H3 & H4 & H5).
  exists V. split; [exact H1|]. split; [exact H2|]. split; [exact H3|].
  split; [exact H4|]. apply H5.
  - reflexivity.
  - change (16 <= 512). lia.
  - reflexivity.
Defined.


(** **** C7 *)

(** C7 on the code: with a file that cannot be decoded, and with an image
    whose padded sides differ, the run writes nothing and ends through
    [exit(0)]: the exit status is zero.  Without the argument [main]
    returns -1. *)
Theorem main_status_on_bad_input
    (imread : string -> Mat Z) (randu : Z -> list float)
    (to_32F : Z -> float) (to_8U : float -> Z)
    (dct_data idct_data : Z -> Z -> list float -> list float)
    (CalcWatermark : list float -> float -> list float) :
  main (fun _ => mkMat 0 0 []) randu to_32F to_8U dct_data idct_data
       CalcWatermark ["DigiMark"; "missing.png"]%string
    = mkRun [] (Exit 0) /\
  main (fun _ => mkMat 2 3 [0; 0; 0; 0; 0; 0]) randu to_32F to_8U dct_data
       idct_data CalcWatermark ["DigiMark"; "wide.png"]%string
    = mkRun [] (Exit 0) /\
  main imread randu to_32F to_8U dct_data idct_data CalcWatermark
       ["DigiMark"]%string
    = mkRun [] (Ok (-1)).
Proof. repeat split; reflexivity. Qed.

(** * Further properties of the tiler *)

Section TilerEdges.
Context {A : Type} `{Scalar A}.

(** X1: for a square image and a positive block size, [createBlocks]
    appends the same blocks whatever the list holds already: the blocks of a
    call on the empty list follow the earlier content, which is kept. *)
Theorem createBlocks_appends (I : Mat A) (N : Z) :
  rows I = cols I -> 0 < N ->
  exists B, createBlocks [] I N = Ok B /\
            forall V, createBlocks V I N = Ok (V ++ B).
Proof.
  intros Hsq HN. exists (tiles I N). split.
  - now rewrite createBlocks_tiles.
  - intros V. now apply createBlocks_tiles.
Qed.

(** X2: a block size larger than the side of the (square) image gives no
    block at all: the list comes back as it was, without an error. *)
Theorem createBlocks_oversize (V : list (Mat A)) (I : Mat A) (N : Z) :
  rows I = cols I -> 0 <= rows I < N -> createBlocks V I N = Ok V.
Proof.
  intros Hsq HN. rewrite createBlocks_tiles by lia.
  unfold tiles. rewrite Z.div_small by lia. cbn. now rewrite app_nil_r.
Qed.

(** X3: on a square image of side below [INT_MAX], with block size 0 the
    counters of [createBlocks] stay at 0 and every pass appends a block:
    the call ends in [std::bad_alloc].  With a negative block size for
    which the loop bound [M1 - N + 1] is still an [int], the first region
    of interest raises. *)
Theorem createBlocks_bad_block_size (V : list (Mat A)) (I : Mat A) :
  rows I = cols I -> 0 <= rows I < INT_MAX ->
  createBlocks V I 0 = BadAlloc /\
  forall N, rows I - INT_MAX < N < 0 -> createBlocks V I N = CvError.
Proof.
  intros Hsq HM. unfold INT_MAX in HM. split.
  - unfold createBlocks. rewrite <- Hsq, Z.eqb_refl. cbn [negb].
    replace (INT_MAX <? rows I - 0 + 1) with false
      by (symmetry; apply Z.ltb_ge; unfold INT_MAX; lia).
    rewrite andb_false_r.
    unfold loop_fuel at 1. apply for_step_body_no_end; [lia|].
    apply for_step_zero_no_end; [lia|].
    intros s. rewrite roi_ok; [eexists; reflexivity|].
    apply rect_inside_spec; cbn [x y width height]. lia.
  - intros N HN. unfold INT_MAX in HN.
    unfold createBlocks. rewrite <- Hsq, Z.eqb_refl. cbn [negb].
    replace (INT_MAX <? rows I - N + 1) with false
      by (symmetry; apply Z.ltb_ge; unfold INT_MAX; lia).
    rewrite andb_false_r.
    unfold loop_fuel. cbn [for_step].
    replace (0 <? rows I - N + 1) with true by (symmetry; apply Z.ltb_lt; lia).
    unfold roi.
    replace (rect_inside I (mkRect 0 0 N N)) with false; [reflexivity|].
    symmetry. apply not_true_iff_false. rewrite rect_inside_spec.
    cbn [x y width height]. lia.
Qed.

(** The frames of the tiling fit in an image of the size of the tiled one. *)
Lemma tiles_frames_fit (I : Mat A) (N : Z) (k : nat) (Vk : Mat A) :
  0 <= rows I -> 0 < N -> N <= rows I ->
  nth_error (tiles I N) k = Some Vk ->
  rect_inside (zeros (rows I) (rows I) : Mat A)
              (block_frame Vk (Z.of_nat k) (rows I / N)) = true.
Proof.
  intros HM HN HNM Hk. set (M := rows I) in *. set (G := M / N).
  assert (HG : 1 <= G) by (apply Z.div_le_lower_bound; lia).
  pose proof (Z.div_mod M N ltac:(lia)) as Hdm. fold G in Hdm.
  pose proof (Z.mod_pos_bound M N HN) as Hmod.
  assert (Hklen : (k < length (tiles I N))%nat)
    by (apply nth_error_Some; congruence).
  pose proof (length_tiles I N HM HN) as L. fold M in L. fold G in L.
  pose proof (tiles_headers I N) as Hh. rewrite Forall_forall in Hh.
  destruct (Hh Vk (nth_error_In _ _ Hk)) as (HRk & HCk).
  rewrite block_frame_nonneg by lia.
  apply rect_inside_spec.
  change (rows (zeros M M)) with M. change (cols (zeros M M)) with M.
  cbn [x y width height]. rewrite HRk, HCk.
  pose proof (Z.div_mod (Z.of_nat k) G ltac:(lia)).
  pose proof (Z.mod_pos_bound (Z.of_nat k) G ltac:(lia)).
  assert (0 <= Z.of_nat k / G < G).
  { split; [apply Z.div_pos; lia|]. apply Z.div_lt_upper_bound; nia. }
  repeat split; nia.
Qed.

(** X4: tiling a square image with any block size [N] between 1 and its
    side and reassembling into a zero image of the same size, with grid
    width [side / N], gives back the image on the part the grid covers and
    zero on the strip that the tiling dropped. *)
Theorem tile_reassemble_truncates (I : Mat A) (N : Z) :
  continuous I -> rows I = cols I -> 0 < N <= rows I ->
  exists V D,
    createBlocks [] I N = Ok V /\
    assembleBlocks V (zeros (rows I) (cols I)) (rows I / N) = Ok D /\
    rows D = rows I /\ cols D = cols I /\
    forall r c, in_mat I r c = true ->
      at_ D r c =
      if (r <? rows I / N * N) && (c <? rows I / N * N)
      then at_ I r c else zero.
Proof.
  intros Hcont Hsq HN. exists (tiles I N).
  rewrite createBlocks_tiles by lia.
  rewrite <- Hsq. set (M := rows I) in *. set (G := M / N).
  assert (HM : 0 <= M) by apply Hcont.
  assert (HG : 1 <= G) by (apply Z.div_le_lower_bound; lia).
  unfold assembleBlocks.
  destruct (assemble_from_cases (tiles I N) 0 (zeros M M) G ltac:(lia))
    as [(D & HD & HRD & HCD & _) | (_ & k & Vk & Hk & Hout)].
  - exists D. split; [reflexivity|]. split; [assumption|].
    split; [exact HRD|]. split; [exact HCD|].
    intros r c Hrc.
    assert (Hrc' : in_mat (zeros M M : Mat A) r c = true).
    { apply in_mat_spec in Hrc. apply in_mat_spec.
      change (rows (zeros M M)) with M. change (cols (zeros M M)) with M.
      fold M in Hrc. lia. }
    rewrite (assemble_from_uniform (tiles I N) 0 (zeros M M) D G N
               ltac:(lia) ltac:(lia) ltac:(lia) (tiles_headers I N) HD r c Hrc').
    cbn zeta. apply in_mat_spec in Hrc. fold M in Hrc. rewrite <- Hsq in Hrc.
    assert (Hp : 0 <= r / N) by (apply Z.div_pos; lia).
    assert (Hq : 0 <= c / N) by (apply Z.div_pos; lia).
    pose proof (length_tiles I N HM ltac:(lia)) as L. fold M in L. fold G in L.
    rewrite L, Z.add_0_l.
    assert (Er : (r / N <? G) = (r <? G * N)).
    { apply eq_true_iff_eq. rewrite !Z.ltb_lt. split; intros Hlt.
      - pose proof (Z.div_mod r N ltac:(lia)).
        pose proof (Z.mod_pos_bound r N ltac:(lia)). nia.
      - apply Z.div_lt_upper_bound; lia. }
    assert (Ec : (c / N <? G) = (c <? G * N)).
    { apply eq_true_iff_eq. rewrite !Z.ltb_lt. split; intros Hlt.
      - pose proof (Z.div_mod c N ltac:(lia)).
        pose proof (Z.mod_pos_bound c N ltac:(lia)). nia.
      - apply Z.div_lt_upper_bound; lia. }
    rewrite <- Er, <- Ec.
    destruct (Z.ltb_spec (r / N) G) as [Hr|Hr]; cbn [andb].
    + replace (0 <=? c / N * G + r / N) with true
        by (symmetry; apply Z.leb_le; nia).
      cbn [andb].
      destruct (Z.ltb_spec (c / N) G) as [Hc|Hc].
      * replace (c / N * G + r / N <? G * G) with true
          by (symmetry; apply Z.ltb_lt; nia).
        rewrite Z.sub_0_r.
        rewrite nth_tiles by (fold M; fold G; nia). fold M. fold G.
        destruct (proj1 (grid_index_unique G (r / N) (c / N)
                           (c / N * G + r / N) ltac:(lia) ltac:(lia)))
          as (E1 & E2); [split; [lia | reflexivity]|].
        rewrite <- E1, <- E2. apply at_cell_of_pixel; lia.
      * replace (c / N * G + r / N <? G * G) with false
          by (symmetry; apply Z.ltb_ge; nia).
        unfold zeros. now rewrite at_build by lia.
    + unfold zeros. now rewrite at_build by lia.
  - exfalso. rewrite Z.add_0_l in Hout.
    pose proof (tiles_frames_fit I N k Vk HM ltac:(lia) ltac:(lia) Hk) as Hin.
    fold M in Hin. fold G in Hin. congruence.
Qed.

End TilerEdges.

(** * Further properties of the reassembly *)

Section AssemblerFacts.
Context {A : Type} `{Scalar A}.

(** X5: with a grid width other than 0, [assembleBlocks] either ends
    normally, leaving the size of the destination as it was, or raises; and
    it raises exactly when the frame of some block does not fit in the
    destination. *)
Theorem assembleBlocks_raises_iff (V : list (Mat A)) (I : Mat A) (n : Z) :
  n <> 0 ->
  ((exists D, assembleBlocks V I n = Ok D /\
              rows D = rows I /\ cols D = cols I) \/
   assembleBlocks V I n = CvError) /\
  (assembleBlocks V I n = CvError <->
   exists k Vk, nth_error V k = Some Vk /\
                rect_inside I (block_frame Vk (Z.of_nat k) n) = false).
Proof.
  intros Hn. unfold assembleBlocks.
  destruct (assemble_from_cases V 0 I n Hn)
    as [(D & HD & HR & HC & Hins) | (HD & k & Vk & Hk & Hout)].
  - split; [left; now exists D|]. split.
    + rewrite HD. discriminate.
    + intros (k & Vk & Hk & Hout). specialize (Hins k Vk Hk).
      rewrite Z.add_0_l in Hins. congruence.
  - split; [now right|]. split; [|intros _; exact HD].
    intros _. exists k, Vk. split; [assumption|].
    now rewrite Z.add_0_l in Hout.
Qed.

(** X6: [assembleBlocks] touches no pixel outside the frames of its
    blocks: such a pixel has in the result the value the destination had. *)
Theorem assembleBlocks_frame (V : list (Mat A)) (I D : Mat A) (n r c : Z) :
  assembleBlocks V I n = Ok D ->
  in_mat I r c = true ->
  (forall k Vk, nth_error V k = Some Vk ->
     in_rect (block_frame Vk (Z.of_nat k) n) r c = false) ->
  at_ D r c = at_ I r c.
Proof.
  intros HD Hrc Hfree.
  apply (assemble_from_frame V 0 I D n HD r c Hrc).
  intros k Vk Hk. rewrite Z.add_0_l. now apply Hfree.
Qed.

Lemma assemble_from_last_writer (V : list (Mat A)) :
  forall (i : Z) (I D : Mat A) (n r c : Z) (k : nat) (Vk : Mat A),
    assemble_from V i I n = Ok D ->
    in_mat I r c = true ->
    nth_error V k = Some Vk ->
    in_rect (block_frame Vk (i + Z.of_nat k) n) r c = true ->
    (forall j Vj, (k < j)%nat -> nth_error V j = Some Vj ->
       in_rect (block_frame Vj (i + Z.of_nat j) n) r c = false) ->
    at_ D r c =
    at_ Vk (r - y (block_frame Vk (i + Z.of_nat k) n))
           (c - x (block_frame Vk (i + Z.of_nat k) n)).
Proof.
  induction V as [|Vi V IH]; intros i I D n r c k Vk HD Hrc Hk Hin Hlater.
  - destruct k; discriminate.
  - cbn [assemble_from] in HD.
    destruct (n =? 0); [discriminate|].
    destruct (rect_inside I (block_frame Vi i n)) eqn:Hfit;
      [|rewrite (copyTo_roi_out _ _ _ Hfit) in HD; discriminate].
    destruct (copyTo_roi_ok Vi I _ Hfit) as (I' & HI' & HR & HC & Hat).
    rewrite HI' in HD. cbn [bind] in HD.
    assert (Hrc' : in_mat I' r c = true)
      by now rewrite (in_mat_header _ I' _ _ HR HC).
    destruct k as [|k].
    + cbn in Hk. injection Hk as <-. rewrite Z.add_0_r in *.
      rewrite (assemble_from_frame V (i + 1) I' D n HD r c Hrc').
      * rewrite (Hat r c Hrc). now rewrite Hin.
      * intros j Vj Hj. specialize (Hlater (S j) Vj ltac:(lia) Hj).
        now replace (i + 1 + Z.of_nat j) with (i + Z.of_nat (S j)) by lia.
    + cbn in Hk.
      replace (i + Z.of_nat (S k)) with (i + 1 + Z.of_nat k) in * by lia.
      apply (IH (i + 1) I' D n r c k Vk HD Hrc' Hk Hin).
      intros j Vj Hj HVj. specialize (Hlater (S j) Vj ltac:(lia) HVj).
      now replace (i + 1 + Z.of_nat j) with (i + Z.of_nat (S j)) by lia.
Qed.

(** X7: where frames overlap the last block wins: a pixel covered by the
    frame of block [k] and by no later frame holds, in the result, the
    pixel of block [k] that the frame puts there. *)
Theorem assembleBlocks_last_writer (V : list (Mat A)) (I D : Mat A)
    (n r c : Z) (k : nat) (Vk : Mat A) :
  assembleBlocks V I n = Ok D ->
  in_mat I r c = true ->
  nth_error V k = Some Vk ->
  in_rect (block_frame Vk (Z.of_nat k) n) r c = true ->
  (forall j Vj, (k < j)%nat -> nth_error V j = Some Vj ->
     in_rect (block_frame Vj (Z.of_nat j) n) r c = false) ->
  at_ D r c =
  at_ Vk (r - y (block_frame Vk (Z.of_nat k) n))
         (c - x (block_frame Vk (Z.of_nat k) n)).
Proof.
  intros HD Hrc Hk Hin Hlater.
  pose proof (assemble_from_last_writer V 0 I D n r c k Vk HD Hrc Hk) as L.
  rewrite Z.add_0_l in L. apply L; [assumption|].
  intros j Vj Hj HVj. rewrite Z.add_0_l. now apply Hlater.
Qed.

End AssemblerFacts.

(** * Further properties of the selection and of the embedding loop *)

Section SelectionFacts.

Lemma maxVal_after_min (st : MinMax) (v : float) (k : Z) :
  maxVal (if SFltb v (minVal st)
          then mkMinMax v (maxVal st) k (maxIdx st) else st) = maxVal st /\
  maxIdx (if SFltb v (minVal st)
          then mkMinMax v (maxVal st) k (maxIdx st) else st) = maxIdx st.
Proof. destruct (SFltb v (minVal st)); now split. Qed.

(** Elements that are not above the running maximum leave its position. *)
Lemma minMaxIdx_max_stays (l : list float) :
  forall k st,
    (forall v, In v l -> SFltb (maxVal st) v = false) ->
    maxIdx (minMaxIdx_ l k st) = maxIdx st.
Proof.
  induction l as [|v l IH]; intros k st Hall; [reflexivity|].
  cbn [minMaxIdx_].
  destruct (maxVal_after_min st v k) as (E1 & E2).
  rewrite E1, (Hall v (or_introl eq_refl)).
  rewrite IH; [exact E2|].
  intros v' Hv'. rewrite E1. apply Hall. now right.
Qed.

(** The position of the maximum is kept or moves to where the scan is. *)
Lemma minMaxIdx_max_mono (l : list float) :
  forall k st,
    maxIdx (minMaxIdx_ l k st) = maxIdx st \/
    k <= maxIdx (minMaxIdx_ l k st).
Proof.
  induction l as [|v l IH]; intros k st; [now left|].
  cbn [minMaxIdx_].
  destruct (maxVal_after_min st v k) as (E1 & E2).
  match goal with
  | |- context [minMaxIdx_ l (k + 1) ?s] =>
      destruct (IH (k + 1) s) as [E|E]; [|right; lia]; rewrite E
  end.
  destruct (SFltb _ v); cbn [maxIdx]; [right; lia | left; exact E2].
Qed.

(** An element above the running maximum moves its position. *)
Lemma minMaxIdx_max_moves (l : list float) :
  forall k st,
    (exists v, In v l /\ SFltb (maxVal st) v = true) ->
    k <= maxIdx (minMaxIdx_ l k st).
Proof.
  induction l as [|v l IH]; intros k st (v0 & Hin & Hv0); [destruct Hin|].
  cbn [minMaxIdx_].
  destruct (maxVal_after_min st v k) as (E1 & E2).
  rewrite E1.
  destruct (SFltb (maxVal st) v) eqn:Hv.
  - match goal with
    | |- context [minMaxIdx_ l (k + 1) ?s] =>
        destruct (minMaxIdx_max_mono l (k + 1) s) as [E|E]; [|lia];
        rewrite E
    end.
    cbn [maxIdx]. lia.
  - destruct Hin as [->|Hin]; [congruence|].
    match goal with
    | |- context [minMaxIdx_ l (k + 1) ?s] =>
        assert (k + 1 <= maxIdx (minMaxIdx_ l (k + 1) s)); [|lia]
    end.
    apply IH. exists v0. split; [assumption|]. now rewrite E1.
Qed.

(** The second scan of [placeWatermark] when the first maximum was at
    (0,0): the position found is 1 exactly when nothing in the rest of the
    buffer is above zero. *)
Lemma second_scan_position (tl : list float) :
  let st := minMaxIdx_ (@zero float _ :: tl) 1
              (mkMinMax (S754_infinity false) (S754_infinity true) 0 0) in
  1 <= maxIdx st < 2 + Z.of_nat (length tl) /\
  (maxIdx st = 1 <->
   forall v, In v tl -> SFltb (@zero float _) v = false).
Proof.
  set (st2 := mkMinMax (@zero float _) (@zero float _) 1 1).
  assert (E0 : minMaxIdx_ (@zero float _ :: tl) 1
                 (mkMinMax (S754_infinity false) (S754_infinity true) 0 0) =
               minMaxIdx_ tl 2 st2) by reflexivity.
  cbn zeta. rewrite E0. clear E0.
  destruct (minMaxIdx_range tl 2 st2) as (_ & R2); [cbn; lia | cbn; lia |].
  destruct (minMaxIdx_max_mono tl 2 st2) as [E|E].
  - cbn [maxIdx st2] in E. split; [lia|]. split; [|intros _; exact E].
    intros _ v Hv. destruct (SFltb (@zero float _) v) eqn:Hgt; [|reflexivity].
    pose proof (minMaxIdx_max_moves tl 2 st2
                  (ex_intro _ v (conj Hv Hgt))). lia.
  - split; [lia|]. split; [lia|].
    intros Hall. rewrite (minMaxIdx_max_stays tl 2 st2 Hall). reflexivity.
Qed.

(** Elements of the buffer after the first, and positions of the matrix
    other than (0,0). *)
Lemma tail_positions (Vi : Mat float) (d : float) (tl : list float)
    (P : float -> Prop) :
  continuous Vi -> data Vi = d :: tl ->
  ((forall v, In v tl -> P v) <->
   (forall r c, in_mat Vi r c = true -> (r, c) <> (0, 0) ->
                P (at_ Vi r c))).
Proof.
  intros (HR & HC & Hlen) Hdata. rewrite Hdata in Hlen. cbn [length] in Hlen.
  rewrite Nat2Z.inj_succ in Hlen.
  assert (HCpos : 0 < cols Vi) by nia.
  split.
  - intros Hall r c Hrc Hne. apply in_mat_spec in Hrc.
    unfold at_. rewrite Hdata.
    assert (Ho : 1 <= r * cols Vi + c).
    { destruct (Z.eq_dec r 0) as [->|]; [|nia].
      destruct (Z.eq_dec c 0) as [->|]; [congruence | lia]. }
    replace (Z.to_nat (r * cols Vi + c))
      with (S (Z.to_nat (r * cols Vi + c - 1))) by lia.
    cbn [nth]. apply Hall. apply nth_In. nia.
  - intros Hall v Hv.
    destruct (In_nth tl v (@zero float _) Hv) as (j & Hj & <-).
    set (o := Z.of_nat (S j)).
    pose proof (Z.div_mod o (cols Vi) ltac:(lia)) as Hdm.
    pose proof (Z.mod_pos_bound o (cols Vi) HCpos) as Hmod.
    assert (Hq : 0 <= o / cols Vi < rows Vi).
    { split; [apply Z.div_pos; lia|]. apply Z.div_lt_upper_bound; nia. }
    assert (Hne : (o / cols Vi, o mod cols Vi) <> (0, 0)).
    { intros [= E1 E2]. rewrite E1, E2 in Hdm. lia. }
    specialize (Hall (o / cols Vi) (o mod cols Vi)
                  ltac:(apply in_mat_spec; lia) Hne).
    unfold at_ in Hall. rewrite Hdata in Hall.
    replace (o / cols Vi * cols Vi + o mod cols Vi) with o in Hall by lia.
    unfold o in Hall. now rewrite Nat2Z.id in Hall.
Qed.

(** X8: when the maximum of a non-empty block is found at (0,0), the
    coordinate [placeWatermark] selects is (0,0) again exactly when no
    other coefficient of the block is greater than zero; as soon as one is,
    the coordinate selected is another one. *)
Theorem significant_loc_dc_iff (Vi : Mat float) :
  continuous Vi -> empty Vi = false ->
  snd (minMaxLoc Vi) = mkPoint 0 0 ->
  exists p, significant_loc Vi = Ok p /\
    (p = mkPoint 0 0 <->
     forall r c, in_mat Vi r c = true -> (r, c) <> (0, 0) ->
                 SFltb (@zero float _) (at_ Vi r c) = false).
Proof.
  intros Hc He Hfirst.
  pose proof Hc as (HR & HC & Hlen).
  assert (Hne : rows Vi * cols Vi <> 0) by now apply Z.eqb_neq.
  assert (HRpos : 0 < rows Vi) by nia.
  assert (HCpos : 0 < cols Vi) by nia.
  destruct (data Vi) as [|d tl] eqn:Hdata; [cbn in Hlen; lia|].
  pose proof (tail_positions Vi d tl
                (fun v => SFltb (@zero float _) v = false) Hc Hdata) as Htail.
  cbn beta in Htail.
  unfold significant_loc. rewrite Hfirst.
  rewrite set_at_ok by (apply in_mat_spec; cbn [px py]; lia).
  cbn [bind px py]. eexists. split; [reflexivity|].
  rewrite Hdata. cbn [Z.mul Z.add Z.to_nat list_set].
  unfold minMaxLoc. cbn [snd data].
  destruct (second_scan_position tl) as (Hrange & Hiff).
  cbn zeta in Hrange, Hiff.
  set (idx := maxIdx (minMaxIdx_ (@zero float _ :: tl) 1
                (mkMinMax (S754_infinity false) (S754_infinity true) 0 0)))
    in *.
  unfold empty. cbn [rows cols].
  replace (rows Vi * cols Vi =? 0) with false
    by (symmetry; now apply Z.eqb_neq).
  replace (idx =? 0) with false by (symmetry; apply Z.eqb_neq; lia).
  cbn [negb andb]. unfold ofs2loc. cbn [cols].
  replace (0 <? idx) with true by (symmetry; apply Z.ltb_lt; lia).
  apply (iff_trans (B := idx = 1)); [|exact (iff_trans Hiff Htail)]. split.
  - intros [= E1 E2].
    pose proof (Z.div_mod (idx - 1) (cols Vi) ltac:(lia)) as Hdm.
    rewrite E1, E2 in Hdm. lia.
  - intros ->. cbn [Z.sub Z.add Z.opp Z.pos_sub].
    now rewrite Z.mod_0_l, Z.div_0_l by lia.
Qed.

Lemma significant_loc_dc_iff_witness :
  let Vi := block_of 2 2 [10; 3; 0; 0] in
  exists p, significant_loc Vi = Ok p /\
    (p = mkPoint 0 0 <->
     forall r c, in_mat Vi r c = true -> (r, c) <> (0, 0) ->
                 SFltb (@zero float _) (at_ Vi r c) = false).
Proof.
  apply (significant_loc_dc_iff (block_of 2 2 [10; 3; 0; 0])).
  - repeat split; simpl; lia.
  - reflexivity.
  - reflexivity.
Defined.

End SelectionFacts.

Section EmbeddingLoopFacts.

Lemma placeWatermark_buffer (Vi Vi' : Mat float) (w : float) :
  placeWatermark Vi w = Ok Vi' ->
  rows Vi' = rows Vi /\ cols Vi' = cols Vi /\
  exists k v, data Vi' = list_set (data Vi) k v.
Proof.
  unfold placeWatermark.
  destruct (significant_loc Vi) as [p| | | |]; try discriminate.
  cbn [bind]. destruct (get_at Vi p); try discriminate. cbn [bind].
  unfold set_at. destruct (in_mat Vi (py p) (px p)); [|discriminate].
  intros [= <-]. split; [reflexivity|]. split; [reflexivity|].
  eexists _, _. reflexivity.
Qed.

(** X9: when the embedding loop ends normally it returns as many blocks
    as it got, each with the size of the block it comes from and with at
    most one coefficient changed. *)
Theorem embed_from_one_coefficient (W : Mat float) (Vdct Vw : list (Mat float))
    (i : Z) :
  embed_from W Vdct i = Ok Vw ->
  Forall2 (fun a b => rows b = rows a /\ cols b = cols a /\
                      (changed_count (data a) (data b) <= 1)%nat) Vdct Vw.
Proof.
  revert i Vw. induction Vdct as [|Vi V IH]; intros i Vw; cbn [embed_from].
  - intros [= <-]. constructor.
  - destruct (at_rc W (Z.quot i n) (Z.rem i n)) as [w| | | |];
      try discriminate. cbn [bind].
    destruct (placeWatermark Vi w) as [Vi'| | | |] eqn:E; try discriminate.
    cbn [bind].
    destruct (embed_from W V (i + 1)) as [rest| | | |] eqn:E';
      try discriminate. cbn [bind].
    intros [= <-]. constructor; [|eapply IH; eassumption].
    destruct (placeWatermark_buffer Vi Vi' w E) as (HR & HC & k & v & Hd).
    split; [assumption|]. split; [assumption|].
    rewrite Hd. apply changed_count_set.
Qed.

Lemma embed_from_one_coefficient_witness :
  let W := mkMat 8 8 (repeat (of_Z 1) 64) in
  let Vdct := [block_of 2 2 [10; 3; 0; 0]; block_of 2 2 [5; -4; 1; 0]] in
  let Vw := [mkMat 2 2 [of_Z 10; fadd (of_Z 3) (fmul half (of_Z 1));
                        of_Z 0; of_Z 0];
             mkMat 2 2 [of_Z 5; of_Z (-4);
                        fadd (of_Z 1) (fmul half (of_Z 1)); of_Z 0]] in
  Forall2 (fun a b => rows b = rows a /\ cols b = cols a /\
                      (changed_count (data a) (data b) <= 1)%nat) Vdct Vw.
Proof.
  apply (embed_from_one_coefficient (mkMat 8 8 (repeat (of_Z 1) 64))
           [block_of 2 2 [10; 3; 0; 0]; block_of 2 2 [5; -4; 1; 0]] _ 0).
  vm_compute. reflexivity.
Defined.

(** The loop fails on its first read of the field once the index is 64. *)
Lemma embed_from_past_field (W : Mat float) (Vdct : list (Mat float)) :
  rows W = 8 -> cols W = 8 ->
  forall i0,
    0 <= i0 <= 64 -> 64 < i0 + Z.of_nat (length Vdct) ->
    Forall (fun b => continuous b /\ empty b = false) Vdct ->
    embed_from W Vdct i0 = Undefined.
Proof.
  intros HRW HCW.
  induction Vdct as [|Vi V IH]; intros i0 Hi0 Hlen Hall.
  - cbn in Hlen. lia.
  - cbn [length] in Hlen. rewrite Nat2Z.inj_succ in Hlen.
    apply Forall_cons_iff in Hall. destruct Hall as ((Hc & He) & Hall).
    cbn [embed_from]. unfold n.
    rewrite Z.quot_div_nonneg, Z.rem_mod_nonneg by lia.
    destruct (Z.eq_dec i0 64) as [->|Hlt].
    + unfold at_rc, in_mat. rewrite HRW.
      change (64 / 8) with 8. now rewrite Z.ltb_irrefl.
    + pose proof (Z.mod_pos_bound i0 8 ltac:(lia)) as Hmod.
      assert (Hdiv : 0 <= i0 / 8 < 8).
      { split; [apply Z.div_pos; lia | apply Z.div_lt_upper_bound; lia]. }
      unfold at_rc.
      replace (in_mat W (i0 / 8) (i0 mod 8)) with true
        by (symmetry; apply in_mat_spec; lia).
      cbn [bind].
      destruct (placeWatermark_ok Vi (at_ W (i0 / 8) (i0 mod 8)) Hc He)
        as (Vi' & HVi').
      rewrite HVi'. cbn [bind]. fold n.
      now rewrite (IH (i0 + 1) ltac:(lia) ltac:(lia) Hall).
Qed.

(** X10: the watermark field has 8 rows, so with more than 64 non-empty
    blocks the embedding loop reads the field outside its buffer: after 64
    blocks it asks for row 8. *)
Theorem embed_from_out_of_bounds (W : Mat float) (Vdct : list (Mat float)) :
  rows W = 8 -> cols W = 8 ->
  (64 < length Vdct)%nat ->
  Forall (fun b => continuous b /\ empty b = false) Vdct ->
  embed_from W Vdct 0 = Undefined.
Proof.
  intros HRW HCW Hlen Hall.
  apply embed_from_past_field; try assumption; lia.
Qed.

Lemma embed_from_out_of_bounds_witness :
  embed_from (mkMat 8 8 (repeat (of_Z 1) 64))
             (repeat (block_of 1 1 [3]) 65) 0 = Undefined.
Proof.
  apply (embed_from_out_of_bounds (mkMat 8 8 (repeat (of_Z 1) 64))
           (repeat (block_of 1 1 [3]) 65)).
  - reflexivity.
  - reflexivity.
  - cbn. lia.
  - apply Forall_forall. intros b Hb. apply repeat_spec in Hb. subst b.
    split; [repeat split; cbn; lia | reflexivity].
Defined.

End EmbeddingLoopFacts.

(** * Further properties of the input handling *)

Lemma smooth5_pos (m : Z) : smooth5 m = true -> 0 < m.
Proof.
  unfold smooth5. intros Hm. apply andb_true_iff in Hm.
  destruct Hm as (Hm & _). apply Z.ltb_lt. exact Hm.
Qed.

Lemma next_smooth5_found (fuel : nat) :
  forall v m,
    smooth5 m = true -> v <= m -> (Z.to_nat (m - v) < fuel)%nat ->
    v <= next_smooth5 fuel v <= m /\
    smooth5 (next_smooth5 fuel v) = true.
Proof.
  induction fuel as [|fuel IH]; intros v m Hm Hle Hfuel; [lia|].
  cbn [next_smooth5]. destruct (smooth5 v) eqn:Hv.
  - split; [lia | assumption].
  - assert (v <> m) by congruence.
    destruct (IH (v + 1) m Hm ltac:(lia) ltac:(lia)) as (Hr & Hs).
    split; [lia | assumption].
Qed.

Lemma smooth5_pow2 (L : Z) : 0 <= L <= 31 -> smooth5 (2 ^ L) = true.
Proof.
  intros HL.
  assert (Hall : forallb (fun l => smooth5 (2 ^ l)) (zseq 0 32) = true)
    by (vm_compute; reflexivity).
  rewrite forallb_forall in Hall. apply Hall. apply in_zseq. lia.
Qed.

(** Between a size and its double there is a power of 2. *)
Lemma pow2_cover (v : Z) :
  1 <= v < 2125764000 -> exists L, 0 <= L <= 31 /\ v <= 2 ^ L <= 2 * v.
Proof.
  intros Hv. destruct (Z.eq_dec v 1) as [->|Hne].
  - exists 0. cbn. lia.
  - exists (Z.log2_up v).
    pose proof (Z.log2_up_spec v ltac:(lia)) as (Hlo & Hhi).
    pose proof (Z.log2_up_nonneg v) as Hnn.
    assert (Hpos : 0 < Z.log2_up v) by (apply Z.log2_up_pos; lia).
    assert (H31 : Z.log2_up v <= 31).
    { apply Z.log2_up_le_pow2; [lia|]. change (2 ^ 31) with 2147483648. lia. }
    split; [lia|]. split; [assumption|].
    replace (Z.log2_up v) with (Z.succ (Z.pred (Z.log2_up v))) by lia.
    rewrite Z.pow_succ_r by lia. lia.
Qed.

(** Below the last entry of the table [getOptimalDFTSize] finds a size: it
    is not below the argument and at most twice it. *)
Lemma getOptimalDFTSize_found (v : Z) :
  0 <= v < 2125764000 ->
  Z.max v 1 <= getOptimalDFTSize v <= 2 * Z.max v 1 /\
  smooth5 (getOptimalDFTSize v) = true.
Proof.
  intros Hv. destruct (Z.eq_dec v 0) as [->|Hv0].
  { split; [cbn; lia | reflexivity]. }
  unfold getOptimalDFTSize.
  replace ((v <? 0) || (2125764000 <=? v)) with false.
  2:{ symmetry. apply orb_false_iff. split;
      [apply Z.ltb_ge | apply Z.leb_gt]; lia. }
  destruct (pow2_cover (Z.max v 1) ltac:(lia)) as (L & HL & Hlo & Hhi).
  destruct (next_smooth5_found (S (Z.to_nat v)) (Z.max v 1) (2 ^ L)
              (smooth5_pow2 L HL) Hlo ltac:(lia)) as (Hr & Hs).
  split; [lia | assumption].
Qed.

Section InputFacts.
Variable imread : string -> Mat Z.

(** X11: an image that was decoded, with sides below the last entry of
    the size table, is rejected (through [exit(0)]) exactly when the padded
    sizes of its two sides differ, and is accepted otherwise: the sides
    themselves need not be equal. *)
Theorem processImageFromFile_accepts (fileName : string) :
  continuous (imread fileName) ->
  empty (imread fileName) = false ->
  rows (imread fileName) < 2125764000 ->
  cols (imread fileName) < 2125764000 ->
  (processImageFromFile imread fileName = Exit 0 <->
   getOptimalDFTSize (rows (imread fileName)) <>
   getOptimalDFTSize (cols (imread fileName))) /\
  (getOptimalDFTSize (rows (imread fileName)) =
   getOptimalDFTSize (cols (imread fileName)) ->
   exists I, processImageFromFile imread fileName = Ok I).
Proof.
  intros (HR & HC & _) He HRl HCl. unfold processImageFromFile. rewrite He.
  destruct (getOptimalDFTSize_found (rows (imread fileName)) ltac:(lia))
    as (HMr & _).
  destruct (getOptimalDFTSize_found (cols (imread fileName)) ltac:(lia))
    as (HMc & _).
  destruct (Z.eqb_spec (getOptimalDFTSize (rows (imread fileName)))
                       (getOptimalDFTSize (cols (imread fileName))))
    as [E|E]; cbn [negb].
  - unfold copyMakeBorder.
    match goal with
    | |- context [if ?b then _ else _] =>
        replace b with true
          by (symmetry; rewrite !andb_true_iff, !Z.leb_le; lia)
    end.
    split; [split; [discriminate | congruence]|].
    intros _. eexists. reflexivity.
  - split; [split; [intros _; exact E | reflexivity]|]. congruence.
Qed.

(** X12: the image [processImageFromFile] returns is square, no smaller
    than the image read along either side, holds that image in its top-left
    corner and is zero everywhere else. *)
Theorem processImageFromFile_content (fileName : string) (I : Mat Z) :
  continuous (imread fileName) ->
  processImageFromFile imread fileName = Ok I ->
  rows I = cols I /\
  rows (imread fileName) <= rows I /\ cols (imread fileName) <= cols I /\
  forall r c, in_mat I r c = true ->
    at_ I r c = if in_mat (imread fileName) r c
                then at_ (imread fileName) r c else 0.
Proof.
  intros (HR & HC & _). unfold processImageFromFile.
  destruct (empty (imread fileName)); [discriminate|].
  destruct (Z.eqb_spec (getOptimalDFTSize (rows (imread fileName)))
                       (getOptimalDFTSize (cols (imread fileName))))
    as [E|E]; [|discriminate].
  cbn [negb]. unfold copyMakeBorder.
  match goal with
  | |- (if ?b then _ else _) = _ -> _ => destruct b eqn:Hb; [|discriminate]
  end.
  rewrite !andb_true_iff, !Z.leb_le in Hb.
  intros [= <-]. rewrite rows_build, cols_build.
  split; [lia|]. split; [lia|]. split; [lia|].
  intros r c Hrc. apply in_mat_spec in Hrc.
  rewrite rows_build, cols_build in Hrc.
  rewrite at_build by lia. now rewrite !Z.sub_0_r.
Qed.

End InputFacts.

Lemma processImageFromFile_accepts_witness :
  let imread := fun _ : string => mkMat 7 8 (zrange 56) in
  (processImageFromFile imread "lena.png" = Exit 0 <->
   getOptimalDFTSize (rows (imread "lena.png"%string)) <>
   getOptimalDFTSize (cols (imread "lena.png"%string))) /\
  (getOptimalDFTSize (rows (imread "lena.png"%string)) =
   getOptimalDFTSize (cols (imread "lena.png"%string)) ->
   exists I, processImageFromFile imread "lena.png" = Ok I).
Proof.
  apply (processImageFromFile_accepts (fun _ : string => mkMat 7 8 (zrange 56))
           "lena.png").
  - repeat split; cbn; lia.
  - reflexivity.
  - cbn; lia.
  - cbn; lia.
Defined.

Lemma processImageFromFile_content_witness :
  let imread := fun _ : string => mkMat 7 8 (zrange 56) in
  exists I, processImageFromFile imread "lena.png" = Ok I /\
  rows I = cols I /\
  rows (imread "lena.png"%string) <= rows I /\
  cols (imread "lena.png"%string) <= cols I /\
  forall r c, in_mat I r c = true ->
    at_ I r c = if in_mat (imread "lena.png"%string) r c
                then at_ (imread "lena.png"%string) r c else 0.
Proof.
  eexists. split; [vm_compute; reflexivity|].
  apply (processImageFromFile_content (fun _ : string => mkMat 7 8 (zrange 56))
           "lena.png").
  - repeat split; cbn; lia.
  - vm_compute; reflexivity.
Defined.

(** * The run as a whole *)

Section RunFacts.
Variable imread : string -> Mat Z.
Variable randu : Z -> list float.
Variable to_32F : Z -> float.
Variable to_8U : float -> Z.
Variable dct_data : Z -> Z -> list float -> list float.
Variable idct_data : Z -> Z -> list float -> list float.
Variable CalcWatermark : list float -> float -> list float.


(** X13: for a square image of side 520 or more (every padded side above
    512 is one) the run writes [watermark.png] and nothing else, and ends
    with an exception: of the transform, if it refuses the block side, and
    else of the first reassembly, whose blocks do not fit in the 512 by 512
    destination. *)
Theorem pipeline_large_image (I : Mat Z) :
  rows I = cols I -> 520 <= rows I ->
  status (pipeline randu to_32F to_8U dct_data idct_data
             CalcWatermark I) = CvError /\
  map fst (written (pipeline randu to_32F to_8U dct_data idct_data
             CalcWatermark I)) =
    ["watermark.png"%string].
Proof.
  exact (pipeline_large_raises randu to_32F to_8U dct_data idct_data
           CalcWatermark I).
Qed.

(** X14: for a square image of side below 8 the block size is 0: the run
    writes [watermark.png], and the tiling then appends blocks until the
    allocation fails: the run ends in [std::bad_alloc]. *)
Theorem pipeline_small_image (I : Mat Z) :
  rows I = cols I -> 0 <= rows I < 8 ->
  status (pipeline randu to_32F to_8U dct_data idct_data
             CalcWatermark I) = BadAlloc /\
  map fst (written (pipeline randu to_32F to_8U dct_data idct_data
             CalcWatermark I)) =
    ["watermark.png"%string].
Proof.
  intros Hsq HM. unfold pipeline. cbv zeta.
  rewrite tile_image_small_no_end by assumption.
  cbn [andThen status written map fst]. now split.
Qed.

End RunFacts.

Lemma pipeline_large_image_witness :
  let I : Mat Z := zeros 540 540 in
  status (pipeline (fun _ => []) of_Z (fun _ => 0) (fun _ _ l => l)
            (fun _ _ l => l) (fun l _ => l) I) = CvError /\
  map fst (written (pipeline (fun _ => []) of_Z (fun _ => 0) (fun _ _ l => l)
            (fun _ _ l => l) (fun l _ => l) I)) = ["watermark.png"%string].
Proof.
  apply (pipeline_large_image (fun _ => []) of_Z (fun _ => 0) (fun _ _ l => l)
           (fun _ _ l => l) (fun l _ => l) (zeros 540 540)).
  - reflexivity.
  - change (520 <= 540). lia.
Defined.

Lemma pipeline_small_image_witness :
  let I : Mat Z := mkMat 6 6 (zrange 36) in
  status (pipeline (fun _ => []) of_Z (fun _ => 0) (fun _ _ l => l)
            (fun _ _ l => l) (fun l _ => l) I) = BadAlloc /\
  map fst (written (pipeline (fun _ => []) of_Z (fun _ => 0) (fun _ _ l => l)
            (fun _ _ l => l) (fun l _ => l) I)) = ["watermark.png"%string].
Proof.
  apply (pipeline_small_image (fun _ => []) of_Z (fun _ => 0) (fun _ _ l => l)
           (fun _ _ l => l) (fun l _ => l) (mkMat 6 6 (zrange 36))).
  - reflexivity.
  - cbn; lia.
Defined.


Section RunOutcomes.
Variable imread : string -> Mat Z.
Variable randu : Z -> list float.
Variable to_32F : Z -> float.
Variable to_8U : float -> Z.
Variable dct_data : Z -> Z -> list float -> list float.
Variable idct_data : Z -> Z -> list float -> list float.
Variable CalcWatermark : list float -> float -> list float.


(** X15: for a square image of side [M <= 512] with [M mod 8 < M / 8]
    and an even block side (the sizes [cv::dct] takes), and with a
    transform that keeps the buffer length, the run goes through: it writes
    [watermark.png], [dcts.png] and [lena_reassembled.png], in this order,
    and [main] returns 0. *)
Theorem pipeline_completes (I : Mat Z) :
  (forall R C l, length (dct_data R C l) = length l) ->
  rows I = cols I -> rows I mod 8 < rows I / 8 -> rows I <= 512 ->
  Z.even (rows I / 8) = true ->
  status (pipeline randu to_32F to_8U dct_data idct_data
             CalcWatermark I) = Ok 0 /\
  map fst (written (pipeline randu to_32F to_8U dct_data idct_data
             CalcWatermark I)) =
    ["watermark.png"; "dcts.png"; "lena_reassembled.png"]%string.
Proof.
  intros Hdct Hsq Hgrid H512 Heven.
  assert (Hodd : odd_side (rows I / 8) = false).
  { unfold odd_side. rewrite <- Z.negb_even, Heven. apply andb_false_r. }
  destruct (pipeline_run randu to_32F to_8U dct_data idct_data CalcWatermark
              I Hdct Hsq Hgrid H512 Hodd)
    as (Vdct & Idct & Vw & D & Id & _ & _ & _ & _ & _ & _ & _ & ->).
  split; reflexivity.
Qed.

End RunOutcomes.

Lemma pipeline_completes_witness :
  let I : Mat Z := zeros 16 16 in
  status (pipeline (fun _ => []) of_Z (fun _ => 0) (fun _ _ l => l)
            (fun _ _ l => l) (fun l _ => l) I) = Ok 0 /\
  map fst (written (pipeline (fun _ => []) of_Z (fun _ => 0) (fun _ _ l => l)
            (fun _ _ l => l) (fun l _ => l) I)) =
    ["watermark.png"; "dcts.png"; "lena_reassembled.png"]%string.
Proof.
  apply (pipeline_completes (fun _ => []) of_Z (fun _ => 0) (fun _ _ l => l)
           (fun _ _ l => l) (fun l _ => l) (zeros 16 16)).
  - reflexivity.
  - reflexivity.
  - reflexivity.
  - change (16 <= 512). lia.
  - reflexivity.
Defined.

(** ** The ways a run can end *)

Lemma for_step_no_exit {St : Type} (bound step : Z)
    (body : Z -> St -> result St) :
  (forall i s e, body i s <> Exit e) ->
  forall fuel i s e, for_step fuel i bound step body s <> Exit e.
Proof.
  intros Hbody. induction fuel as [|fuel IH]; intros i s e; cbn [for_step];
    [discriminate|].
  destruct (i <? bound); [|discriminate].
  destruct (body i s) as [s'| e' | | |] eqn:E; cbn [bind];
    try discriminate; [apply IH | exfalso; exact (Hbody _ _ _ E)].
Qed.

(** On a square image [createBlocks] never calls [exit]. *)
Lemma createBlocks_no_exit {A : Type} `{Scalar A} (V : list (Mat A))
    (I : Mat A) (N e : Z) :
  rows I = cols I -> createBlocks V I N <> Exit e.
Proof.
  intros Hsq. unfold createBlocks. rewrite <- Hsq, Z.eqb_refl. cbn [negb].
  destruct ((N <=? 0) && (INT_MAX <? rows I - N + 1)); [discriminate|].
  apply for_step_no_exit. intros i s e'.
  apply for_step_no_exit. intros j s' e''.
  unfold roi. destruct (rect_inside I (mkRect i j N N)); discriminate.
Qed.

Lemma assembleBlocks_no_exit {A : Type} `{Scalar A} (V : list (Mat A))
    (I : Mat A) (e : Z) :
  assembleBlocks V I n <> Exit e.
Proof.
  unfold assembleBlocks.
  destruct (assemble_from_cases V 0 I n ltac:(discriminate))
    as [(D & -> & _) | (-> & _)]; discriminate.
Qed.

Lemma placeWatermark_no_exit (Vi : Mat float) (w : float) (e : Z) :
  placeWatermark Vi w <> Exit e.
Proof.
  unfold placeWatermark, significant_loc, get_at, at_rc, set_at.
  destruct (in_mat Vi _ _); cbn [bind]; [|discriminate].
  destruct (in_mat Vi _ _); cbn [bind]; discriminate.
Qed.

Lemma embed_from_no_exit (W : Mat float) (Vdct : list (Mat float)) :
  forall i e, embed_from W Vdct i <> Exit e.
Proof.
  induction Vdct as [|Vi V IH]; intros i e; cbn [embed_from];
    [discriminate|].
  unfold at_rc. destruct (in_mat W _ _); cbn [bind]; [|discriminate].
  destruct (placeWatermark Vi _) as [Vi'| e' | | |] eqn:E; cbn [bind];
    try discriminate; [|exfalso; exact (placeWatermark_no_exit _ _ _ E)].
  destruct (embed_from W V (i + 1)) as [rest| e' | | |] eqn:E'; cbn [bind];
    try discriminate. exfalso. exact (IH _ _ E').
Qed.

Lemma cuda_embed_from_no_exit (CalcWatermark : list float -> float -> list float)
    (W : Mat float) (Vcdct : list (Mat float)) :
  forall i e, cuda_embed_from CalcWatermark W Vcdct i <> Exit e.
Proof.
  induction Vcdct as [|Vi V IH]; intros i e; cbn [cuda_embed_from];
    [discriminate|].
  unfold at_rc. destruct (in_mat W _ _); cbn [bind]; [|discriminate].
  destruct (cuda_embed_from CalcWatermark W V (i + 1))
    as [rest| e' | | |] eqn:E'; cbn [bind]; try discriminate.
  exfalso. exact (IH _ _ E').
Qed.

Section RunStatus.
Variable imread : string -> Mat Z.
Variable randu : Z -> list float.
Variable to_32F : Z -> float.
Variable to_8U : float -> Z.
Variable dct_data : Z -> Z -> list float -> list float.
Variable idct_data : Z -> Z -> list float -> list float.
Variable CalcWatermark : list float -> float -> list float.


(** What [processImageFromFile] can give: [exit(0)], an exception of the
    padding, or a square image. *)
Lemma processImageFromFile_cases (fileName : string) :
  processImageFromFile imread fileName = Exit 0 \/
  processImageFromFile imread fileName = CvError \/
  exists I, processImageFromFile imread fileName = Ok I /\ rows I = cols I.
Proof.
  unfold processImageFromFile.
  destruct (empty (imread fileName)); [now left|].
  destruct (Z.eqb_spec (getOptimalDFTSize (rows (imread fileName)))
                       (getOptimalDFTSize (cols (imread fileName))))
    as [E|E]; cbn [negb]; [|now left].
  unfold copyMakeBorder.
  match goal with
  | |- context [if ?b then _ else _] => destruct b; [|now right; left]
  end.
  right; right. eexists. split; [reflexivity|].
  rewrite rows_build, cols_build. lia.
Qed.

(** A run on a square image returns 0 after its three files, or ends
    abnormally; it never calls [exit]. *)
Lemma pipeline_status (I : Mat Z) :
  rows I = cols I ->
  forall r, r = pipeline randu to_32F to_8U dct_data idct_data CalcWatermark I ->
  (status r = Ok 0 /\
   map fst (written r) =
     ["watermark.png"; "dcts.png"; "lena_reassembled.png"]%string) \/
  ((status r = CvError \/ status r = Undefined \/ status r = BadAlloc) /\
   written r <> []).
Proof.
  intros Hsq r ->. unfold pipeline. cbv zeta.
  destruct (tile_image I) as [V| e | | |] eqn:E1; cbn [andThen status written];
    try (right; split; [tauto | discriminate]).
  2:{ exfalso. exact (createBlocks_no_exit _ _ _ _ Hsq E1). }
  destruct (transform_blocks_cases to_32F dct_data V) as [(Vdct & ->) | ->];
    cbn [andThen status written];
    [|right; split; [tauto | discriminate]].
  match goal with
  | |- context [andThen _ ?m _] =>
      destruct m as [Idct| e | | |] eqn:E2; cbn [andThen status written];
        try (right; split; [tauto | discriminate])
  end.
  2:{ exfalso. exact (assembleBlocks_no_exit _ _ _ E2). }
  match goal with
  | |- context [andThen _ ?m _] =>
      destruct m as [Vw| e | | |] eqn:E3; cbn [andThen status written];
        try (right; split; [tauto | discriminate])
  end.
  2:{ exfalso. exact (embed_from_no_exit _ _ _ _ E3). }
  destruct (inverse_blocks_cases idct_data Vw) as [(D & ->) | ->];
    cbn [andThen status written];
    [|right; split; [tauto | discriminate]].
  match goal with
  | |- context [andThen _ ?m _] =>
      destruct m as [Id| e | | |] eqn:E4; cbn [andThen status written];
        try (right; split; [tauto | discriminate])
  end.
  2:{ exfalso. exact (assembleBlocks_no_exit _ _ _ E4). }
  match goal with
  | |- context [andThen _ ?m _] =>
      destruct m as [Vc| e | | |] eqn:E5; cbn [andThen status written];
        try (right; split; [tauto | discriminate])
  end.
  2:{ exfalso. exact (cuda_embed_from_no_exit _ _ _ _ _ E5). }
  destruct (inverse_blocks_cases idct_data Vc) as [(Dc & ->) | ->];
    cbn [andThen status written];
    [|right; split; [tauto | discriminate]].
  match goal with
  | |- context [andThen _ ?m _] =>
      destruct m as [Icd| e | | |] eqn:E6; cbn [andThen status written];
        try (right; split; [tauto | discriminate])
  end.
  2:{ exfalso. exact (assembleBlocks_no_exit _ _ _ E6). }
  left. split; reflexivity.
Qed.

(** X16: whatever the arguments and the file, a run that ends through
    [return] returns -1 (wrong number of arguments, nothing written) or 0
    (after the three output files); a run that ends through [exit] has
    status 0 and has written nothing: the dimension check of
    [createBlocks] is never the one that fires, and no failure is ever
    reported by a non-zero status other than -1.  (The other runs raise,
    end in [std::bad_alloc], or have undefined behaviour.) *)
Theorem main_outcomes (argv : list string) :
  let r :=
    main imread randu to_32F to_8U dct_data idct_data CalcWatermark argv in
    (forall c, status r = Ok c ->
       (c = -1 /\ length argv <> 2%nat /\ written r = []) \/
       (c = 0 /\ length argv = 2%nat /\
        map fst (written r) =
          ["watermark.png"; "dcts.png"; "lena_reassembled.png"]%string)) /\
    (forall s, status r = Exit s -> s = 0 /\ written r = []).
Proof.
  cbv zeta. unfold main.
  destruct (Z.eqb_spec (Z.of_nat (length argv)) 2) as [Hargc|Hargc];
    cbn [negb].
  - destruct (processImageFromFile_cases (nth 1 argv EmptyString))
      as [-> | [-> | (I & -> & Hsq)]]; cbn [andThen status written].
    + split; [discriminate|]. intros s [= <-]. now split.
    + split; discriminate.
    + destruct (pipeline_status I Hsq _ eq_refl) as [(Hs & Hw) | (Hs & Hw)].
      * rewrite Hs. split; [|discriminate].
        intros c [= <-]. right. split; [reflexivity|]. split; [lia|exact Hw].
      * split; intros ? Hst; rewrite Hst in Hs;
          destruct Hs as [Hs|[Hs|Hs]]; discriminate.
  - cbn [status written]. split; [|discriminate].
    intros c [= <-]. left. split; [reflexivity|]. split; [lia | reflexivity].
Qed.

End RunStatus.

(** ** Instances *)

Lemma createBlocks_appends_witness :
  let I := mkMat 2 2 [10; 20; 30; 40] in
  exists B, createBlocks [] I 1 = Ok B /\
            forall V, createBlocks V I 1 = Ok (V ++ B).
Proof.
  apply (createBlocks_appends (mkMat 2 2 [10; 20; 30; 40]) 1).
  - reflexivity.
  - lia.
Defined.

Lemma createBlocks_oversize_witness :
  createBlocks [] (mkMat 2 2 [10; 20; 30; 40]) 3 = Ok [].
Proof.
  apply (createBlocks_oversize [] (mkMat 2 2 [10; 20; 30; 40]) 3).
  - reflexivity.
  - cbn; lia.
Defined.

Lemma createBlocks_bad_block_size_witness :
  let I := mkMat 2 2 [10; 20; 30; 40] in
  createBlocks [] I 0 = BadAlloc /\
  forall N, rows I - INT_MAX < N < 0 -> createBlocks [] I N = CvError.
Proof.
  apply (createBlocks_bad_block_size [] (mkMat 2 2 [10; 20; 30; 40])).
  - reflexivity.
  - unfold INT_MAX; cbn; lia.
Defined.

Lemma tile_reassemble_truncates_witness :
  let I := mkMat 3 3 [1; 2; 3; 4; 5; 6; 7; 8; 9] in
  exists V D,
    createBlocks [] I 2 = Ok V /\
    assembleBlocks V (zeros (rows I) (cols I)) (rows I / 2) = Ok D /\
    rows D = rows I /\ cols D = cols I /\
    forall r c, in_mat I r c = true ->
      at_ D r c =
      if (r <? rows I / 2 * 2) && (c <? rows I / 2 * 2)
      then at_ I r c else zero.
Proof.
  apply (tile_reassemble_truncates (mkMat 3 3 [1; 2; 3; 4; 5; 6; 7; 8; 9]) 2).
  - repeat split; cbn; lia.
  - reflexivity.
  - cbn; lia.
Defined.

Lemma assembleBlocks_raises_iff_witness :
  let V := [mkMat 1 1 [5]] in
  let I : Mat Z := zeros 2 2 in
  ((exists D, assembleBlocks V I 2 = Ok D /\
              rows D = rows I /\ cols D = cols I) \/
   assembleBlocks V I 2 = CvError) /\
  (assembleBlocks V I 2 = CvError <->
   exists k Vk, nth_error V k = Some Vk /\
                rect_inside I (block_frame Vk (Z.of_nat k) 2) = false).
Proof.
  apply (assembleBlocks_raises_iff [mkMat 1 1 [5]] (zeros 2 2) 2).
  lia.
Defined.

Lemma assembleBlocks_frame_witness :
  at_ (mkMat 2 2 [5; 2; 3; 4]) 1 1 = at_ (mkMat 2 2 [1; 2; 3; 4]) 1 1.
Proof.
  apply (assembleBlocks_frame [mkMat 1 1 [5]] (mkMat 2 2 [1; 2; 3; 4])
           (mkMat 2 2 [5; 2; 3; 4]) 2 1 1).
  - vm_compute; reflexivity.
  - reflexivity.
  - intros [|[|k]] Vk Hk; cbn in Hk; try discriminate.
    injection Hk as <-. reflexivity.
Defined.

Lemma assembleBlocks_last_writer_witness :
  let Vk := mkMat 1 1 [9] in
  at_ (mkMat 2 2 [1; 2; 9; 4]) 1 0 =
  at_ Vk (1 - y (block_frame Vk (Z.of_nat 1) 2))
         (0 - x (block_frame Vk (Z.of_nat 1) 2)).
Proof.
  apply (assembleBlocks_last_writer [mkMat 2 2 [1; 2; 3; 4]; mkMat 1 1 [9]]
           (zeros 2 2) (mkMat 2 2 [1; 2; 9; 4]) 2 1 0 1 (mkMat 1 1 [9])).
  - vm_compute; reflexivity.
  - reflexivity.
  - reflexivity.
  - reflexivity.
  - intros [|[|[|j]]] Vj Hj HVj; cbn in HVj; try discriminate; lia.
Defined.
